(** * A shallow embedding of [src/event bus/EventBus.hpp]

    Event types are identified by their (C++) type name, an event value is
    the tuple of constructor arguments it was built from ([Event event{args...}]
    and [mEventQueue.push_back({args...})] / [emplace_back(args...)] build
    the same value), and a bound callable is named by a number.  What a
    callable does when invoked is given by [effect]: the list of
    [EventBus::EnqueueEvent] calls it makes on the bus it is bound to, in
    order.  Every invocation is recorded in the trace of the world. *)

From Stdlib Require Import ZArith.
From stdpp Require Import base list gmap strings.

Abbreviation ty := string (only parsing).
Definition val := list Z.
Definition callable := nat.

(** One invocation [f(event)] of a bound callable [f] with an event of type
    [T] and value [a]. *)
Definition invocation : Type := callable * ty * val.

(** ** Event type registry: [GetUniqueEventId] and [GetEventId<Event>]

    [next_id] is the function-local [static int id] of [GetUniqueEventId];
    [event_ids] collects the function-local [static int eventID] of every
    instantiated [GetEventId<Event>] (absent = not yet initialised). *)
Record registry := { next_id : nat; event_ids : gmap string nat }.

Definition registry0 : registry := {| next_id := 0; event_ids := ∅ |}.

Definition GetUniqueEventId (r : registry) : nat * registry :=
  (next_id r, {| next_id := S (next_id r); event_ids := event_ids r |}).

Definition GetEventId (T : ty) (r : registry) : nat * registry :=
  match event_ids r !! T with
  | Some i => (i, r)
  | None =>
      let '(i, r') := GetUniqueEventId r in
      (i, {| next_id := next_id r'; event_ids := <[T := i]> (event_ids r') |})
  end.

(** ** [Signal<void(Event)>] *)

(** Modelled from the spec: [Signal<void(Event)>] from
    [delegates/.../signal.hpp], which is not part of the sources.  The spec
    describes it as a multicast invoker holding the bound callables in
    subscription order: [Bind] appends a callable and [operator()] invokes
    every bound callable, in subscription order, with the event. *)
Definition Signal := list callable.

Definition Signal_Bind (c : callable) (s : Signal) : Signal := s ++ [c].

(** ** [EventBus::EventPool<Event>] *)

(** [pool_type] is the template argument [Event] of the pool (its dynamic
    type behind [EventPoolBase*]). *)
Record EventPool := {
  pool_type : ty;
  mSignal : Signal;
  mEventQueue : list val
}.

Definition new_EventPool (T : ty) : EventPool :=
  {| pool_type := T; mSignal := []; mEventQueue := [] |}.

Definition pool_push_back (a : val) (p : EventPool) : EventPool :=
  {| pool_type := pool_type p; mSignal := mSignal p;
     mEventQueue := mEventQueue p ++ [a] |}.

Definition pool_clear (p : EventPool) : EventPool :=
  {| pool_type := pool_type p; mSignal := mSignal p; mEventQueue := [] |}.

Definition pool_bind (c : callable) (p : EventPool) : EventPool :=
  {| pool_type := pool_type p; mSignal := Signal_Bind c (mSignal p);
     mEventQueue := mEventQueue p |}.

(** ** The world: the process-wide registry, one [EventBus] (its
    [std::vector<EventPoolBase*> mEventPools], [None] = null pointer) and
    the trace of invocations. *)
Record world := {
  reg : registry;
  mEventPools : list (option EventPool);
  trace : list invocation
}.

Definition world0 : world := {| reg := registry0; mEventPools := []; trace := [] |}.

(** A second bus in the same process: it shares the registry. *)
Definition new_bus (w : world) : world :=
  {| reg := reg w; mEventPools := []; trace := trace w |}.

Definition slot (k : nat) (w : world) : option EventPool :=
  match mEventPools w !! k with
  | Some (Some p) => Some p
  | _ => None
  end.

(** The pool of type [T], reached as [GetEventHandler<T>] would, but
    without creating anything. *)
Definition pool_of (T : ty) (w : world) : option EventPool :=
  match event_ids (reg w) !! T with
  | Some k => slot k w
  | None => None
  end.

Definition queue_of (T : ty) (w : world) : list val :=
  match pool_of T w with Some p => mEventQueue p | None => [] end.

Definition subs_of (T : ty) (w : world) : list callable :=
  match pool_of T w with Some p => mSignal p | None => [] end.

(** [mEventPools[k]->...] on the pool behind slot [k]. *)
Definition modify_pool (k : nat) (f : EventPool -> EventPool) (w : world) : world :=
  match mEventPools w !! k with
  | Some (Some p) =>
      {| reg := reg w; mEventPools := <[k := Some (f p)]> (mEventPools w);
         trace := trace w |}
  | _ => w
  end.

Definition log (i : invocation) (w : world) : world :=
  {| reg := reg w; mEventPools := mEventPools w; trace := trace w ++ [i] |}.

(** [EventBus::GetEventHandler<Event>]: returns the index of the pool, the
    reference [*mEventPools[idx]]. *)
Definition GetEventHandler (T : ty) (w : world) : nat * world :=
  let '(idx, r) := GetEventId T (reg w) in
  let pools :=
    if decide (length (mEventPools w) <= idx)
    then mEventPools w ++ replicate (S idx - length (mEventPools w)) None
    else mEventPools w in
  let pools :=
    match pools !! idx with
    | Some (Some _) => pools
    | _ => <[idx := Some (new_EventPool T)]> pools
    end in
  (idx, {| reg := r; mEventPools := pools; trace := trace w |}).

Section EventBus.

(** What each bound callable does on the bus when invoked with an event of
    a given type and value: the list of [EnqueueEvent] calls it makes. *)
Variable effect : callable -> ty -> val -> list (ty * val).

(** [EventBus::EnqueueEvent<Event>(args...)] and [EventPool::EnqueueEvent]. *)
Definition EnqueueEvent (T : ty) (a : val) (w : world) : world :=
  let '(k, w) := GetEventHandler T w in
  modify_pool k (pool_push_back a) w.

(** Calling a bound callable [c] with an event. *)
Definition invoke (c : callable) (T : ty) (a : val) (w : world) : world :=
  fold_left (fun w '(U, b) => EnqueueEvent U b w) (effect c T a) (log (c, T, a) w).

(** [mSignal(event)] on the pool behind slot [k]. *)
Definition signal_call (k : nat) (a : val) (w : world) : world :=
  match slot k w with
  | Some p => fold_left (fun w c => invoke c (pool_type p) a w) (mSignal p) w
  | None => w
  end.

(** [EventPool::TriggerEvent]: [Event event{args...}; mSignal(event);]. *)
Definition pool_TriggerEvent (k : nat) (a : val) (w : world) : world :=
  signal_call k a w.

(** [EventPool::ClearEventQueue]: [mEventQueue.clear()]. *)
Definition pool_ClearEventQueue (k : nat) (w : world) : world :=
  modify_pool k pool_clear w.

(** [EventPool::DispatchQueuedEvents]:
    [for (auto &event : mEventQueue) mSignal(event); ClearEventQueue();].
    The range-for fixes [begin()] and [end()] before the first iteration,
    so it visits the elements present at the start; a [push_back] made by a
    callable lands past the fixed [end()].  (A [push_back] that reallocates
    the vector invalidates the loop's iterators; this model follows the
    non-reallocating case.) *)
Definition pool_DispatchQueuedEvents (k : nat) (w : world) : world :=
  match slot k w with
  | Some p =>
      pool_ClearEventQueue k (fold_left (fun w e => signal_call k e w) (mEventQueue p) w)
  | None => w
  end.

(** [EventBus::TriggerEvent<Event>(args...)]. *)
Definition TriggerEvent (T : ty) (a : val) (w : world) : world :=
  let '(k, w) := GetEventHandler T w in pool_TriggerEvent k a w.

(** [EventBus::SubscribeToEvent<Event>(funObj)]:
    [GetEventHandler<Event>().mSignal.Bind(funObj)]. *)
Definition SubscribeToEvent (T : ty) (c : callable) (w : world) : world :=
  let '(k, w) := GetEventHandler T w in modify_pool k (pool_bind c) w.

(** [EventBus::DispatchQueuedEvents()]:
    [for (EventPoolBase *eventHandler : mEventPools) if (eventHandler)
     eventHandler->DispatchQueuedEvents();] visits the indices present at the
    start and reads each pointer when it reaches it. *)
Definition DispatchQueuedEvents (w : world) : world :=
  fold_left (fun w k => match slot k w with
                        | Some _ => pool_DispatchQueuedEvents k w
                        | None => w
                        end)
            (seq 0 (length (mEventPools w))) w.

(** [EventBus::ClearEventQueues()]. *)
Definition ClearEventQueues (w : world) : world :=
  fold_left (fun w k => match slot k w with
                        | Some _ => pool_ClearEventQueue k w
                        | None => w
                        end)
            (seq 0 (length (mEventPools w))) w.

(** [EventBus::ClearEventQueues<Events...>()]:
    [(GetEventHandler<Events>().ClearEventQueue(), ...)], left to right. *)
Definition ClearEventQueues_sel (Ts : list ty) (w : world) : world :=
  fold_left (fun w T => let '(k, w) := GetEventHandler T w in pool_ClearEventQueue k w) Ts w.

(** ** [EventBus::DispatchQueuedEvents<Event...>() const]

    Its body is [(GetEventHandler<Event>().DispatchEvents(), ...)].  An
    instantiation with a non-empty pack is ill-formed twice over: the call
    names a member [DispatchEvents] that [EventPool<Event>] does not declare,
    and it calls the non-const [GetEventHandler] from a const member
    function.  [None] is a rejected instantiation; an empty pack expands to
    [void()] and is accepted. *)
Definition EventPool_members : list string :=
  ["TriggerEvent"; "EnqueueEvent"; "DispatchQueuedEvents"; "ClearEventQueue";
   "mSignal"; "mEventQueue"].

Definition GetEventHandler_is_const : bool := false.

(** The name and the constness of the enclosing member function a
    fold-expression [(GetEventHandler<Event>().m(), ...)] needs. *)
Definition pool_call_well_formed (m : string) (in_const_member : bool) : bool :=
  bool_decide (m ∈ EventPool_members) && (negb in_const_member || GetEventHandler_is_const).

Definition DispatchQueuedEvents_sel (Ts : list ty) : option (world -> world) :=
  match Ts with
  | [] => Some (fun w => w)
  | _ =>
      if pool_call_well_formed "DispatchEvents" true
      then Some (fun w0 => fold_left (fun w T => let '(k, w) := GetEventHandler T w in
                                                pool_DispatchQueuedEvents k w) Ts w0)
      else None
  end.

(** The sibling [ClearEventQueues<Events...>()] (non-const, calling
    [ClearEventQueue]) passes the same check. *)
Definition ClearEventQueues_sel_checked (Ts : list ty) : option (world -> world) :=
  match Ts with
  | [] => Some (fun w => w)
  | _ =>
      if pool_call_well_formed "ClearEventQueue" false
      then Some (ClearEventQueues_sel Ts)
      else None
  end.

(** ** Client programs: sequences of bus calls *)
Inductive op :=
| OTrigger (T : ty) (a : val)
| OEnqueue (T : ty) (a : val)
| OSubscribe (T : ty) (c : callable)
| ODispatchAll
| OClearAll
| OClearSel (Ts : list ty).

Definition run_op (o : op) (w : world) : world :=
  match o with
  | OTrigger T a => TriggerEvent T a w
  | OEnqueue T a => EnqueueEvent T a w
  | OSubscribe T c => SubscribeToEvent T c w
  | ODispatchAll => DispatchQueuedEvents w
  | OClearAll => ClearEventQueues w
  | OClearSel Ts => ClearEventQueues_sel Ts w
  end.

Definition run (os : list op) (w : world) : world :=
  fold_left (fun w o => run_op o w) os w.

End EventBus.

(** ** Auxiliary definitions for the statements *)

(** Requesting the ids of [Ts], in order, from a registry. *)
Definition request_ids (Ts : list ty) (r : registry) : registry :=
  fold_left (fun r T => snd (GetEventId T r)) Ts r.

(** Well-formed registry: ids below the counter, one type per id, and every
    id below the counter taken. *)
Definition reg_wf (r : registry) : Prop :=
  (forall T i, event_ids r !! T = Some i -> i < next_id r) /\
  (forall T1 T2 i, event_ids r !! T1 = Some i -> event_ids r !! T2 = Some i -> T1 = T2) /\
  (forall i, i < next_id r -> exists T, event_ids r !! T = Some i).

(** Well-formed world: a well-formed registry, and the pool in slot [k] is
    the pool of the type whose id is [k]. *)
Definition wf (w : world) : Prop :=
  reg_wf (reg w) /\
  (forall k p, slot k w = Some p -> event_ids (reg w) !! pool_type p = Some k).

(** The invocations [EventPool::DispatchQueuedEvents] makes when no bound
    callable calls back into the bus: every buffered event, oldest first,
    to every bound callable, in subscription order. *)
Definition flush_trace (p : EventPool) : list invocation :=
  flat_map (fun a => map (fun c => (c, pool_type p, a)) (mSignal p)) (mEventQueue p).

Definition slot_flush_trace (o : option EventPool) : list invocation :=
  match o with Some p => flush_trace p | None => [] end.

Definition of_type (T : ty) (i : invocation) : bool :=
  let '(_, U, _) := i in bool_decide (U = T).

(** The bus calls of a client program that the spec lists as creating the
    pool of [T]: a Trigger, an Enqueue or a Subscribe for [T]. *)
Definition seen_trigger_enqueue_subscribe (T : ty) (os : list op) : Prop :=
  exists o, o ∈ os /\
    match o with
    | OTrigger U _ | OEnqueue U _ | OSubscribe U _ => U = T
    | _ => False
    end.

(** The bus calls that resolve the pool of [T] through [GetEventHandler]:
    the three above and a selective [ClearEventQueues<..., T, ...>]. *)
Definition resolves (T : ty) (o : op) : Prop :=
  match o with
  | OTrigger U _ | OEnqueue U _ | OSubscribe U _ => U = T
  | OClearSel Ts => T ∈ Ts
  | ODispatchAll | OClearAll => False
  end.

(** Callables that never call back into the bus. *)
Definition quiet : callable -> ty -> val -> list (ty * val) := fun _ _ _ => [].

(** A callable [0] that, invoked with a ["Damage"] event [[1]], enqueues
    a ["Damage"] event [[2]]. *)
Definition echo : callable -> ty -> val -> list (ty * val) :=
  fun c T a =>
    if bool_decide (c = 0 /\ T = "Damage"%string /\ a = [1%Z])
    then [("Damage"%string, [2%Z])] else [].

(** A callable [1] that, invoked with any ["Hit"] event, enqueues a
    ["Damage"] event [[9]]. *)
Definition hit_enqueues_damage : callable -> ty -> val -> list (ty * val) :=
  fun c T a =>
    if bool_decide (c = 1 /\ T = "Hit"%string) then [("Damage"%string, [9%Z])] else [].

(** A bus where callable [0] is bound to ["Damage"] and one ["Damage"]
    event [[1]] is pending. *)
Definition damage_world : world :=
  run echo [OSubscribe "Damage"%string 0; OEnqueue "Damage"%string [1%Z]] world0.

(** A first bus asks for the ids of ["B"] and then ["A"]; a second bus of
    the same process then uses them in the other order. *)
Definition first_bus : world :=
  run quiet [OEnqueue "B"%string []; OEnqueue "A"%string []] world0.

Definition second_bus_subscribed : world :=
  run quiet [OSubscribe "A"%string 5; OSubscribe "B"%string 6] (new_bus first_bus).

(** [slot] on the vector itself. *)
Definition slot_l (k : nat) (l : list (option EventPool)) : option EventPool :=
  match l !! k with Some (Some p) => Some p | _ => None end.

(** No slot holding a pool is emptied between [w] and [w']. *)
Definition keeps (w w' : world) : Prop :=
  forall j, is_Some (slot j w) -> is_Some (slot j w').

(** [w] with the invocations [t] appended to its trace. *)
Definition add_trace (t : list invocation) (w : world) : world :=
  {| reg := reg w; mEventPools := mEventPools w; trace := trace w ++ t |}.

(** Every invocation in [t] went to a callable bound, in [w], to the type
    of the event it received. *)
Definition delivered (w : world) (t : list invocation) : Prop :=
  forall c U a, (c, U, a) ∈ t -> c ∈ subs_of U w.

(** Ids once handed out stay. *)
Definition ids_ext (w w' : world) : Prop :=
  forall V i, event_ids (reg w) !! V = Some i -> event_ids (reg w') !! V = Some i.

Section Steps.

Variable effect : callable -> ty -> val -> list (ty * val).

(** [T] is enqueued by one of the invocations of [t]. *)
Definition caused (T : ty) (t : list invocation) : Prop :=
  exists c U a b, (c, U, a) ∈ t /\ (T, b) ∈ effect c U a.

(** A run from [w] to [w'] of bus code other than [SubscribeToEvent]: it keeps
    the world well formed, the ids and the bound callables; it appends
    invocations [t] to the trace, each delivered to a callable bound to its
    event type; and the pools existing afterwards are those existing before,
    those of the types [E] resolved directly and those of the types
    enqueued by the invocations [t]. *)
Definition fstep (E : ty -> Prop) (w w' : world) : Prop :=
  wf w' /\ ids_ext w w' /\ (forall U, subs_of U w' = subs_of U w) /\
  exists t, trace w' = trace w ++ t /\ delivered w t /\
    (forall T, is_Some (pool_of T w') <-> is_Some (pool_of T w) \/ E T \/ caused T t).

End Steps.

(** The values of the [U] events in a list of [EnqueueEvent] calls, in order. *)
Definition enqueued_of (U : ty) (l : list (ty * val)) : list val :=
  flat_map (fun '(V, b) => if bool_decide (V = U) then [b] else []) l.

(** The callables a client program subscribes to [T], in program order. *)
Definition subscriptions (T : ty) (os : list op) : list callable :=
  flat_map (fun o => match o with
                     | OSubscribe U c => if bool_decide (U = T) then [c] else []
                     | _ => []
                     end) os.

(** * Proofs *)

(** ** Registry *)

Lemma GetEventId_lookup T r : event_ids (snd (GetEventId T r)) !! T = Some (fst (GetEventId T r)).
Proof.
  unfold GetEventId. destruct (event_ids r !! T) eqn:E; simpl; [done|].
  by rewrite lookup_insert_eq.
Qed.

Lemma GetEventId_ext T r V i :
  event_ids r !! V = Some i -> event_ids (snd (GetEventId T r)) !! V = Some i.
Proof.
  intros H. unfold GetEventId. destruct (event_ids r !! T) eqn:E; simpl; [done|].
  rewrite lookup_insert_ne; [done|]. intros ->. congruence.
Qed.

Lemma GetEventId_other T r V :
  V <> T -> event_ids (snd (GetEventId T r)) !! V = event_ids r !! V.
Proof.
  intros H. unfold GetEventId. destruct (event_ids r !! T) eqn:E; simpl; [done|].
  by rewrite lookup_insert_ne.
Qed.

Lemma GetEventId_wf T r : reg_wf r -> reg_wf (snd (GetEventId T r)).
Proof.
  intros (Hlt & Hinj & Hden). unfold GetEventId.
  destruct (event_ids r !! T) eqn:E; simpl; [by repeat split|].
  repeat split; simpl.
  - intros V i. rewrite lookup_insert.
    case_decide; [intros [= <-]; lia|]. intros H'. apply Hlt in H'. lia.
  - intros V1 V2 i. rewrite !lookup_insert.
    case_decide as H1; case_decide as H2; try congruence.
    + intros [= <-] H'. apply Hlt in H'. lia.
    + intros H' [= <-]. apply Hlt in H'. lia.
    + apply Hinj.
  - intros i Hi. destruct (decide (i = next_id r)) as [->|Hne].
    + exists T. by rewrite lookup_insert_eq.
    + destruct (Hden i) as [V HV]; [lia|]. exists V.
      rewrite lookup_insert_ne; [done|]. intros <-. congruence.
Qed.

Lemma GetEventId_fresh T r : event_ids r !! T = None -> fst (GetEventId T r) = next_id r.
Proof. intros E. unfold GetEventId. by rewrite E. Qed.

(** ** [GetEventHandler] and [modify_pool], slot by slot *)

Lemma slot_l_resize (l : list (option EventPool)) n j :
  slot_l j (l ++ replicate n None) = slot_l j l.
Proof.
  unfold slot_l. rewrite lookup_app.
  destruct (l !! j) as [o|]; [done|].
  destruct (replicate n None !! _) eqn:E; [|done].
  apply lookup_replicate in E as [-> _]. done.
Qed.

Lemma GH_fst T w : fst (GetEventHandler T w) = fst (GetEventId T (reg w)).
Proof. unfold GetEventHandler. by destruct (GetEventId T (reg w)). Qed.

Lemma GH_reg T w : reg (snd (GetEventHandler T w)) = snd (GetEventId T (reg w)).
Proof. unfold GetEventHandler. by destruct (GetEventId T (reg w)). Qed.

Lemma GH_trace T w : trace (snd (GetEventHandler T w)) = trace w.
Proof. unfold GetEventHandler. destruct (GetEventId T (reg w)). by destruct (_ !! _) as [[]|]. Qed.

Lemma GH_slot T w j :
  slot j (snd (GetEventHandler T w)) =
  if decide (j = fst (GetEventHandler T w))
  then Some (default (new_EventPool T) (slot j w)) else slot j w.
Proof.
  rewrite GH_fst. unfold GetEventHandler, slot.
  destruct (GetEventId T (reg w)) as [idx r]; simpl.
  set (l1 := if decide _ then _ else _).
  assert (Hs : forall j, slot_l j l1 = slot_l j (mEventPools w)).
  { intros j'. unfold l1. case_decide; [apply slot_l_resize|done]. }
  assert (Hlen : idx < length l1).
  { unfold l1. case_decide; [rewrite length_app, length_replicate|]; lia. }
  change (match ?l !! ?k with Some (Some p) => Some p | _ => None end) with (slot_l k l).
  rewrite <- (Hs j). clear Hs.
  destruct (l1 !! idx) as [[p|]|] eqn:E.
  - case_decide; subst; [|done]. unfold slot_l. by rewrite E.
  - unfold slot_l. case_decide; subst.
    + rewrite list_lookup_insert_eq, E; [done|lia].
    + by rewrite list_lookup_insert_ne.
  - apply lookup_ge_None in E. lia.
Qed.

Lemma MP_slot k f w j :
  slot j (modify_pool k f w) = if decide (j = k) then f <$> slot k w else slot j w.
Proof.
  unfold modify_pool, slot. destruct (mEventPools w !! k) as [[p|]|] eqn:E;
    case_decide; subst; simpl; rewrite ?E; try done.
  - rewrite list_lookup_insert_eq; [done|]. by apply lookup_lt_Some in E.
  - by rewrite list_lookup_insert_ne.
Qed.

Lemma MP_reg k f w : reg (modify_pool k f w) = reg w.
Proof. unfold modify_pool. by destruct (_ !! k) as [[]|]. Qed.

Lemma MP_trace k f w : trace (modify_pool k f w) = trace w.
Proof. unfold modify_pool. by destruct (_ !! k) as [[]|]. Qed.

Lemma MP_length k f w : length (mEventPools (modify_pool k f w)) = length (mEventPools w).
Proof. unfold modify_pool. destruct (_ !! k) as [[]|]; simpl; by rewrite ?length_insert. Qed.

Lemma GH_length T w : length (mEventPools w) <= length (mEventPools (snd (GetEventHandler T w))).
Proof.
  unfold GetEventHandler. destruct (GetEventId T (reg w)). simpl.
  destruct (decide _); [destruct (_ !! n) as [[]|]; simpl; rewrite ?length_insert, ?length_app; lia|].
  destruct (_ !! n) as [[]|]; simpl; rewrite ?length_insert; lia.
Qed.

Lemma GH_wf T w : wf w -> wf (snd (GetEventHandler T w)).
Proof.
  intros [Hr Hp]. split; rewrite GH_reg; [by apply GetEventId_wf|].
  intros j p. rewrite GH_slot, GH_fst. case_decide as Hj.
  - destruct (slot j w) as [p0|] eqn:E; simpl; intros [= <-].
    + apply GetEventId_ext. by apply Hp.
    + subst j. apply GetEventId_lookup.
  - intros E. apply GetEventId_ext. by apply Hp.
Qed.

(** A fresh id has no pool yet. *)
Lemma wf_slot_next w : wf w -> slot (next_id (reg w)) w = None.
Proof.
  intros [[Hlt _] Hp]. destruct (slot _ w) as [p|] eqn:E; [|done].
  apply Hp, Hlt in E. lia.
Qed.

Lemma wf_pool_of w k p : wf w -> slot k w = Some p -> pool_of (pool_type p) w = Some p.
Proof. intros [_ Hp] E. unfold pool_of. by rewrite (Hp _ _ E). Qed.

Lemma GH_pool_of T w U :
  wf w ->
  pool_of U (snd (GetEventHandler T w)) =
  if decide (U = T) then Some (default (new_EventPool T) (pool_of T w)) else pool_of U w.
Proof.
  intros Hw. pose proof (GetEventId_wf T _ (proj1 Hw)) as (_ & Hinj & _).
  unfold pool_of at 1. rewrite GH_reg. case_decide as HU.
  - subst U. rewrite GetEventId_lookup, GH_slot, GH_fst, decide_True by done.
    unfold pool_of. destruct (event_ids (reg w) !! T) eqn:E.
    + unfold GetEventId. by rewrite E.
    + rewrite GetEventId_fresh by done. by rewrite wf_slot_next.
  - rewrite GetEventId_other by done. unfold pool_of.
    destruct (event_ids (reg w) !! U) as [k|] eqn:E; [|done].
    rewrite GH_slot, GH_fst. case_decide; [|done]. subst k.
    exfalso. apply HU, (Hinj U T (fst (GetEventId T (reg w)))).
    + rewrite GetEventId_other by done. done.
    + apply GetEventId_lookup.
Qed.

Lemma MP_wf k f w : (forall p, pool_type (f p) = pool_type p) -> wf w -> wf (modify_pool k f w).
Proof.
  intros Hf [Hr Hp]. split; rewrite MP_reg; [done|].
  intros j p. rewrite MP_slot. case_decide; [|apply Hp]. subst j.
  destruct (slot k w) as [p0|] eqn:E; simpl; [|done]. intros [= <-].
  rewrite Hf. by apply Hp.
Qed.

Lemma MP_pool_of k f w U T :
  wf w -> event_ids (reg w) !! T = Some k ->
  pool_of U (modify_pool k f w) = if decide (U = T) then f <$> pool_of T w else pool_of U w.
Proof.
  intros [(_ & Hinj & _) _] HT. unfold pool_of. rewrite MP_reg. case_decide as HU.
  - subst U. rewrite HT, MP_slot. by rewrite decide_True.
  - destruct (event_ids (reg w) !! U) as [j|] eqn:E; [|done].
    rewrite MP_slot. case_decide; [|done]. subst j. exfalso. eauto.
Qed.

Lemma request_ids_wf Ts r : reg_wf r -> reg_wf (request_ids Ts r).
Proof.
  revert r. induction Ts as [|T Ts IH]; intros r Hr; simpl; [done|].
  apply IH, GetEventId_wf, Hr.
Qed.

Lemma GetEventId_is_Some T r U :
  is_Some (event_ids (snd (GetEventId T r)) !! U) <-> is_Some (event_ids r !! U) \/ U = T.
Proof.
  destruct (decide (U = T)) as [->|HU].
  - rewrite GetEventId_lookup. split; [eauto|done].
  - rewrite GetEventId_other by done. intuition.
Qed.

Lemma request_ids_is_Some Ts r U :
  is_Some (event_ids (request_ids Ts r) !! U) <-> is_Some (event_ids r !! U) \/ U ∈ Ts.
Proof.
  revert r. induction Ts as [|T Ts IH]; intros r; simpl.
  - rewrite elem_of_nil. intuition.
  - rewrite IH, GetEventId_is_Some, elem_of_cons. intuition.
Qed.

(** ** Slots are never emptied *)

Lemma keeps_trans w1 w2 w3 : keeps w1 w2 -> keeps w2 w3 -> keeps w1 w3.
Proof. unfold keeps. eauto. Qed.

Lemma GH_keeps T w : keeps w (snd (GetEventHandler T w)).
Proof. intros j Hj. rewrite GH_slot. case_decide; [done|done]. Qed.

Lemma MP_keeps k f w : keeps w (modify_pool k f w).
Proof.
  intros j Hj. rewrite MP_slot. case_decide; [subst; destruct Hj as [? ->]|]; done.
Qed.

Lemma log_slot i w j : slot j (log i w) = slot j w.
Proof. done. Qed.

Section Callables.

Variable effect : callable -> ty -> val -> list (ty * val).

Lemma Enqueue_keeps T a w : keeps w (EnqueueEvent T a w).
Proof.
  unfold EnqueueEvent. pose proof (GH_keeps T w) as H.
  destruct (GetEventHandler T w) as [k w1]. eapply keeps_trans; [apply H|apply MP_keeps].
Qed.

Lemma Enqueues_keeps (l : list (ty * val)) w :
  keeps w (fold_left (fun w '(U, b) => EnqueueEvent U b w) l w).
Proof.
  revert w. induction l as [|[U b] l IH]; intros w; simpl; [by intros j|].
  eapply keeps_trans; [apply Enqueue_keeps|apply IH].
Qed.

Lemma invoke_keeps c T a w : keeps w (invoke effect c T a w).
Proof.
  unfold invoke. eapply keeps_trans; [|apply Enqueues_keeps]. intros j. by rewrite log_slot.
Qed.

Lemma signal_call_keeps k a w : keeps w (signal_call effect k a w).
Proof.
  unfold signal_call. destruct (slot k w) as [p|]; [|by intros j].
  generalize (mSignal p) w. intros l. induction l as [|c l IH]; intros w'; simpl; [by intros j|].
  eapply keeps_trans; [apply invoke_keeps|apply IH].
Qed.

Lemma signal_calls_keeps k (l : list val) w :
  keeps w (fold_left (fun w e => signal_call effect k e w) l w).
Proof.
  revert w. induction l as [|e l IH]; intros w; simpl; [by intros j|].
  eapply keeps_trans; [apply signal_call_keeps|apply IH].
Qed.

(** C10: when [EventPool::DispatchQueuedEvents] returns, the buffer of the
    pool is empty, whatever the bound callables enqueued into it while the
    flush was running (the closing [ClearEventQueue()] removes those too). *)
Theorem pool_dispatch_leaves_queue_empty (k : nat) (w : world) (p : EventPool) :
  slot k w = Some p ->
  exists q, slot k (pool_DispatchQueuedEvents effect k w) = Some q /\ mEventQueue q = [].
Proof.
  intros Hk. unfold pool_DispatchQueuedEvents. rewrite Hk.
  unfold pool_ClearEventQueue. rewrite MP_slot, decide_True by done.
  destruct (signal_calls_keeps k (mEventQueue p) w k) as [q Hq]; [by rewrite Hk|].
  rewrite Hq. by exists (pool_clear q).
Qed.

End Callables.

(** C4: the ids handed out by [GetEventId] from a fresh process: a type
    already seen gets its cached id back, a new type gets the counter of
    [GetUniqueEventId], which then moves on by one; no two types share an
    id; the ids handed out are exactly [0 .. next_id - 1]; and the types
    having an id are exactly the types requested. *)
Theorem event_ids_cached_sequential_dense (Ts : list ty) (T : ty) :
  let r := request_ids Ts registry0 in
  (forall i, event_ids r !! T = Some i -> GetEventId T r = (i, r)) /\
  (event_ids r !! T = None ->
     GetEventId T r =
       (next_id r, {| next_id := S (next_id r);
                      event_ids := <[T := next_id r]> (event_ids r) |})) /\
  (forall T1 T2 i, event_ids r !! T1 = Some i -> event_ids r !! T2 = Some i -> T1 = T2) /\
  (forall i, i < next_id r <-> exists U, event_ids r !! U = Some i) /\
  (forall U, is_Some (event_ids r !! U) <-> U ∈ Ts).
Proof.
  intros r.
  assert (Hr : reg_wf r) by (apply request_ids_wf; repeat split; intros; simplify_map_eq; lia).
  destruct Hr as (Hlt & Hinj & Hden).
  split; [intros i Hi; unfold GetEventId; by rewrite Hi|].
  split; [intros Hi; unfold GetEventId; by rewrite Hi|].
  split; [exact Hinj|]. split.
  - intros i. split; [apply Hden|]. intros [U HU]. eauto.
  - intros U. unfold r. rewrite request_ids_is_Some. simpl.
    rewrite lookup_empty. split; [intros [[? ?]|]; [done|done]|auto].
Qed.

(** ** Enqueue *)

Lemma Enqueue_trace T a w : trace (EnqueueEvent T a w) = trace w.
Proof.
  unfold EnqueueEvent. pose proof (GH_trace T w) as H.
  destruct (GetEventHandler T w) as [k w1]. by rewrite MP_trace.
Qed.

Lemma Enqueue_wf T a w : wf w -> wf (EnqueueEvent T a w).
Proof.
  intros Hw. unfold EnqueueEvent. pose proof (GH_wf T w Hw) as H.
  destruct (GetEventHandler T w) as [k w1]. by apply MP_wf.
Qed.

Lemma Enqueue_reg T a w : reg (EnqueueEvent T a w) = snd (GetEventId T (reg w)).
Proof.
  unfold EnqueueEvent. pose proof (GH_reg T w) as H.
  destruct (GetEventHandler T w) as [k w1]. by rewrite MP_reg.
Qed.

Lemma Enqueue_pool_of T a w U :
  wf w ->
  pool_of U (EnqueueEvent T a w) =
  if decide (U = T)
  then Some (pool_push_back a (default (new_EventPool T) (pool_of T w)))
  else pool_of U w.
Proof.
  intros Hw. unfold EnqueueEvent.
  pose proof (GH_pool_of T w) as HP. pose proof (GH_wf T w Hw) as HW.
  pose proof (GH_reg T w) as HR. pose proof (GH_fst T w) as HF.
  destruct (GetEventHandler T w) as [k w1]. simpl in *.
  rewrite (MP_pool_of k _ w1 U T); [|done|].
  - rewrite !HP by done. case_decide; [|done]. subst U. by rewrite decide_True.
  - rewrite HR, HF. apply GetEventId_lookup.
Qed.

Lemma pool_of_type T w p : wf w -> pool_of T w = Some p -> pool_type p = T.
Proof.
  intros [[_ [Hinj _]] Hp]. unfold pool_of.
  destruct (event_ids (reg w) !! T) as [k|] eqn:E; [|done].
  intros Hk. apply Hp in Hk. eauto.
Qed.

Lemma Enqueues_spec T (evs : list val) w :
  wf w ->
  let w1 := fold_left (fun w a => EnqueueEvent T a w) evs w in
  wf w1 /\ trace w1 = trace w /\ queue_of T w1 = queue_of T w ++ evs /\
  subs_of T w1 = subs_of T w.
Proof.
  revert w. induction evs as [|a evs IH]; intros w Hw; simpl.
  - by rewrite app_nil_r.
  - destruct (IH (EnqueueEvent T a w)) as (H1 & H2 & H3 & H4); [by apply Enqueue_wf|].
    unfold queue_of, subs_of in *.
    rewrite Enqueue_pool_of, decide_True in H3, H4 by done. simpl in H3, H4.
    split; [done|]. split; [by rewrite H2, Enqueue_trace|]. split.
    + rewrite H3. destruct (pool_of T w); simpl; rewrite <- ?app_assoc; done.
    + rewrite H4. by destruct (pool_of T w).
Qed.

(** ** Clearing every pool *)

Lemma clear_fold_spec (s n : nat) w :
  let w' := fold_left (fun w k => match slot k w with
                                  | Some _ => pool_ClearEventQueue k w
                                  | None => w
                                  end) (seq s n) w in
  reg w' = reg w /\ trace w' = trace w /\
  length (mEventPools w') = length (mEventPools w) /\
  forall j, slot j w' = if decide (s <= j < s + n) then pool_clear <$> slot j w else slot j w.
Proof.
  revert s w. induction n as [|n IH]; intros s w; simpl.
  - repeat split. intros j. rewrite decide_False by lia. done.
  - set (w1 := match slot s w with Some _ => pool_ClearEventQueue s w | None => w end).
    assert (Hw1 : reg w1 = reg w /\ trace w1 = trace w /\
                  length (mEventPools w1) = length (mEventPools w) /\
                  forall j, slot j w1 = if decide (j = s) then pool_clear <$> slot s w else slot j w).
    { unfold w1, pool_ClearEventQueue. destruct (slot s w) eqn:E.
      - rewrite MP_reg, MP_trace, MP_length. repeat split. intros j. by rewrite MP_slot, E.
      - repeat split. intros j. case_decide; subst; by rewrite ?E. }
    destruct Hw1 as (R1 & T1 & L1 & S1).
    destruct (IH (S s) w1) as (R & Tr & L & Sl).
    rewrite R, Tr, L, R1, T1, L1. repeat split. intros j. rewrite Sl, !S1.
    destruct (decide (j = s)); [subst; rewrite decide_False, decide_True by lia; done|].
    destruct (decide (S s <= j < S s + n)); [rewrite decide_True by lia|rewrite decide_False by lia]; done.
Qed.

Lemma slot_beyond k w : length (mEventPools w) <= k -> slot k w = None.
Proof. intros H. unfold slot. by rewrite lookup_ge_None_2. Qed.

Lemma ClearEventQueues_slot w j : slot j (ClearEventQueues w) = pool_clear <$> slot j w.
Proof.
  unfold ClearEventQueues. destruct (clear_fold_spec 0 (length (mEventPools w)) w) as (_ & _ & _ & H).
  rewrite H. case_decide; [done|]. by rewrite slot_beyond by lia.
Qed.

Lemma ClearEventQueues_reg w : reg (ClearEventQueues w) = reg w.
Proof. apply (clear_fold_spec 0 _ w). Qed.

Lemma ClearEventQueues_trace w : trace (ClearEventQueues w) = trace w.
Proof. apply (clear_fold_spec 0 _ w). Qed.

Lemma ClearEventQueues_pool_of w U : pool_of U (ClearEventQueues w) = pool_clear <$> pool_of U w.
Proof.
  unfold pool_of. rewrite ClearEventQueues_reg.
  destruct (event_ids (reg w) !! U); [apply ClearEventQueues_slot|done].
Qed.

Lemma pool_clear_id p : mEventQueue p = [] -> pool_clear p = p.
Proof. destruct p; simpl. by intros ->. Qed.

Lemma MP_clear_id k w p : slot k w = Some p -> mEventQueue p = [] -> modify_pool k pool_clear w = w.
Proof.
  intros Hk Hq. unfold modify_pool, slot in *.
  destruct (mEventPools w !! k) as [[p'|]|] eqn:E; try done. injection Hk as ->.
  rewrite pool_clear_id by done. rewrite list_insert_id by done. by destruct w.
Qed.

Section Dispatching.

Variable effect : callable -> ty -> val -> list (ty * val).

(** A dispatch over buffers that are all empty changes nothing. *)
Lemma Dispatch_empty_buffers w :
  (forall k p, slot k w = Some p -> mEventQueue p = []) ->
  DispatchQueuedEvents effect w = w.
Proof.
  intros Hempty. unfold DispatchQueuedEvents.
  generalize (seq 0 (length (mEventPools w))). intros l. induction l as [|k l IH]; simpl; [done|].
  destruct (slot k w) as [p|] eqn:E; [|done].
  unfold pool_DispatchQueuedEvents. rewrite E, (Hempty k p E). simpl.
  unfold pool_ClearEventQueue. rewrite (MP_clear_id k w p); eauto.
Qed.

(** C6: enqueueing any number of [T] events invokes nobody; the
    parameterless [ClearEventQueues()] then invokes nobody, keeps every
    pool and its bound callables, leaves every buffer empty, and the next
    [DispatchQueuedEvents()] invokes nobody (it changes nothing at all). *)
Theorem clear_queues_discards_without_invoking (w : world) (T : ty) (evs : list val) :
  let w1 := fold_left (fun w a => EnqueueEvent T a w) evs w in
  let w2 := ClearEventQueues w1 in
  trace w1 = trace w /\ trace w2 = trace w1 /\
  (forall U, is_Some (pool_of U w2) <-> is_Some (pool_of U w1)) /\
  (forall U, subs_of U w2 = subs_of U w1) /\
  (forall U, queue_of U w2 = []) /\
  DispatchQueuedEvents effect w2 = w2.
Proof.
  intros w1 w2.
  assert (Htr : trace w1 = trace w).
  { unfold w1. clear. revert w. induction evs as [|a evs IH]; intros w; simpl; [done|].
    by rewrite IH, Enqueue_trace. }
  split; [done|]. split; [apply ClearEventQueues_trace|].
  unfold w2, subs_of, queue_of.
  split; [intros U; rewrite ClearEventQueues_pool_of;
          destruct (pool_of U w1); simpl; split; intros []; eauto|].
  split; [intros U; rewrite ClearEventQueues_pool_of; by destruct (pool_of U w1)|].
  split; [intros U; rewrite ClearEventQueues_pool_of; by destruct (pool_of U w1)|].
  apply Dispatch_empty_buffers. intros k p. rewrite ClearEventQueues_slot.
  destruct (slot k w1); simpl; [intros [= <-]|]; done.
Qed.

End Dispatching.

(** ** The step relation of bus code *)

Lemma MP_None k f w : slot k w = None -> modify_pool k f w = w.
Proof. unfold slot, modify_pool. by destruct (mEventPools w !! k) as [[]|]. Qed.

Section General.

Variable effect : callable -> ty -> val -> list (ty * val).

Local Abbreviation fstep := (fstep effect).

Lemma caused_app T t1 t2 : caused effect T (t1 ++ t2) <-> caused effect T t1 \/ caused effect T t2.
Proof.
  unfold caused. split.
  - intros (c & U & a & b & Hin & Hb). apply elem_of_app in Hin as [|]; [left|right]; eauto 10.
  - intros [(c & U & a & b & Hin & Hb)|(c & U & a & b & Hin & Hb)];
      exists c, U, a, b; rewrite elem_of_app; auto.
Qed.

Lemma caused_single T c U a :
  caused effect T [(c, U, a)] <-> exists b, (T, b) ∈ effect c U a.
Proof.
  unfold caused. split.
  - intros (c' & U' & a' & b & Hin & Hb). apply list_elem_of_singleton in Hin.
    injection Hin as -> -> ->. eauto.
  - intros [b Hb]. exists c, U, a, b. split; [by apply list_elem_of_singleton|done].
Qed.

Lemma fstep_refl w : wf w -> fstep (fun _ => False) w w.
Proof.
  intros Hw. split; [done|]. split; [by intros V i|]. split; [done|].
  exists []. rewrite app_nil_r. split; [done|]. split.
  - intros c U a Hin. by apply elem_of_nil in Hin.
  - intros T. unfold caused. split; [auto|].
    intros [|[[]|(? & ? & ? & ? & Hin & _)]]; [done|]. by apply elem_of_nil in Hin.
Qed.

Lemma fstep_trans E1 E2 w1 w2 w3 :
  fstep E1 w1 w2 -> fstep E2 w2 w3 -> fstep (fun T => E1 T \/ E2 T) w1 w3.
Proof.
  intros (_ & I1 & S1 & t1 & T1 & D1 & P1) (W3 & I2 & S2 & t2 & T2 & D2 & P2).
  split; [done|]. split; [intros V i H; auto|]. split; [intros U; by rewrite S2|].
  exists (t1 ++ t2). split; [by rewrite T2, T1, app_assoc|]. split.
  - intros c U a Hin. apply elem_of_app in Hin as [Hin|Hin]; [by apply (D1 c U a)|].
    rewrite <- S1. by apply (D2 c U a).
  - intros T. rewrite P2, P1, caused_app. tauto.
Qed.

Lemma fstep_ext E E' w w' : (forall T, E T <-> E' T) -> fstep E w w' -> fstep E' w w'.
Proof.
  intros HE (W & I & S & t & Tr & D & P). split; [done|]. split; [done|]. split; [done|].
  exists t. split; [done|]. split; [done|]. intros T. rewrite P, HE. tauto.
Qed.

Lemma fstep_no_trace E w w' :
  wf w' -> ids_ext w w' -> (forall U, subs_of U w' = subs_of U w) -> trace w' = trace w ->
  (forall T, is_Some (pool_of T w') <-> is_Some (pool_of T w) \/ E T) ->
  fstep E w w'.
Proof.
  intros W I S Tr P. split; [done|]. split; [done|]. split; [done|].
  exists []. rewrite app_nil_r. split; [done|]. split.
  - intros c U a Hin. by apply elem_of_nil in Hin.
  - intros T. rewrite P. unfold caused. split; [tauto|].
    intros [|[|(? & ? & ? & ? & Hin & _)]]; [tauto|tauto|]. by apply elem_of_nil in Hin.
Qed.

Lemma GH_fstep T w : wf w -> fstep (fun U => U = T) w (snd (GetEventHandler T w)).
Proof.
  intros Hw. apply fstep_no_trace.
  - by apply GH_wf.
  - intros V i H. rewrite GH_reg. by apply GetEventId_ext.
  - intros U. unfold subs_of. rewrite GH_pool_of by done.
    case_decide; [subst; by destruct (pool_of T w)|done].
  - apply GH_trace.
  - intros U. rewrite GH_pool_of by done. case_decide; [subst; split; eauto|].
    split; [auto|]. intros [|]; [done|congruence].
Qed.

Lemma MP_fstep k f w :
  (forall p, pool_type (f p) = pool_type p) -> (forall p, mSignal (f p) = mSignal p) ->
  wf w -> fstep (fun _ => False) w (modify_pool k f w).
Proof.
  intros Hty Hsig Hw. destruct (slot k w) as [p|] eqn:E; [|rewrite MP_None by done; by apply fstep_refl].
  pose proof (proj2 Hw k p E) as Hk.
  apply fstep_no_trace.
  - by apply MP_wf.
  - intros V i H. by rewrite MP_reg.
  - intros U. unfold subs_of. rewrite (MP_pool_of k f w U (pool_type p)) by done.
    case_decide; [subst; destruct (pool_of (pool_type p) w); simpl; by rewrite ?Hsig|done].
  - apply MP_trace.
  - intros U. rewrite (MP_pool_of k f w U (pool_type p)) by done.
    case_decide as HU; [|tauto]. subst U. destruct (pool_of (pool_type p) w); simpl.
    + split; [left; eauto|eauto].
    + split; [intros [? ?]; done|intros [[? ?]|[]]; done].
Qed.

Lemma Enqueue_fstep T a w : wf w -> fstep (fun U => U = T) w (EnqueueEvent T a w).
Proof.
  intros Hw. unfold EnqueueEvent. pose proof (GH_fstep T w Hw) as H1.
  destruct (GetEventHandler T w) as [k w1]. simpl in H1.
  eapply fstep_ext; [|eapply fstep_trans; [exact H1|apply MP_fstep; [done|done|apply H1]]].
  intros U. tauto.
Qed.

Lemma fstep_wf E w w' : fstep E w w' -> wf w'.
Proof. by intros []. Qed.

Lemma Enqueues_fstep (l : list (ty * val)) w :
  wf w -> fstep (fun T => exists b, (T, b) ∈ l) w
                (fold_left (fun w '(U, b) => EnqueueEvent U b w) l w).
Proof.
  revert w. induction l as [|[U b] l IH]; intros w Hw; simpl.
  - eapply fstep_ext; [|by apply fstep_refl]. intros T. split; [done|].
    intros [b Hb]. by apply elem_of_nil in Hb.
  - pose proof (Enqueue_fstep U b w Hw) as H1.
    eapply fstep_ext; [|eapply fstep_trans; [exact H1|apply IH, (fstep_wf _ _ _ H1)]].
    intros T. setoid_rewrite elem_of_cons. split.
    + intros [->|[b' Hb']]; eauto.
    + intros [b' [Hb'|Hb']]; [injection Hb' as -> ->; auto|eauto].
Qed.

Lemma invoke_fstep c T a w :
  wf w -> c ∈ subs_of T w -> fstep (fun _ => False) w (invoke effect c T a w).
Proof.
  intros Hw Hc. unfold invoke.
  assert (Hw1 : wf (log (c, T, a) w)) by done.
  destruct (Enqueues_fstep (effect c T a) _ Hw1) as (W & I & S & t & Tr & D & P).
  split; [done|]. split; [done|]. split; [done|].
  exists ((c, T, a) :: t). split; [rewrite Tr; simpl; by rewrite <- app_assoc|]. split.
  - intros c' U a' Hin. apply elem_of_cons in Hin as [Hin|Hin]; [by injection Hin as -> -> ->|].
    apply (D c' U a' Hin).
  - intros T'. rewrite P. change ((c, T, a) :: t) with ([(c, T, a)] ++ t).
    rewrite caused_app, caused_single. simpl. tauto.
Qed.

Lemma invokes_fstep T a (l : list callable) w :
  wf w -> (forall c, c ∈ l -> c ∈ subs_of T w) ->
  fstep (fun _ => False) w (fold_left (fun w c => invoke effect c T a w) l w).
Proof.
  revert w. induction l as [|c l IH]; intros w Hw Hl; simpl; [by apply fstep_refl|].
  pose proof (invoke_fstep c T a w Hw (Hl c (list_elem_of_here _ _))) as H1.
  eapply fstep_ext; [|eapply fstep_trans; [exact H1|apply IH]].
  - intros U. tauto.
  - apply (fstep_wf _ _ _ H1).
  - intros c' Hc'. destruct H1 as (_ & _ & S & _). rewrite S. apply Hl. by apply list_elem_of_further.
Qed.

Lemma signal_call_fstep k a w : wf w -> fstep (fun _ => False) w (signal_call effect k a w).
Proof.
  intros Hw. unfold signal_call. destruct (slot k w) as [p|] eqn:E; [|by apply fstep_refl].
  apply invokes_fstep; [done|]. intros c Hc. unfold subs_of.
  by rewrite (wf_pool_of w k p Hw E).
Qed.

Lemma signal_calls_fstep k (l : list val) w :
  wf w -> fstep (fun _ => False) w (fold_left (fun w e => signal_call effect k e w) l w).
Proof.
  revert w. induction l as [|e l IH]; intros w Hw; simpl; [by apply fstep_refl|].
  pose proof (signal_call_fstep k e w Hw) as H1.
  eapply fstep_ext; [|eapply fstep_trans; [exact H1|apply IH, (fstep_wf _ _ _ H1)]].
  intros U. tauto.
Qed.

Lemma pool_dispatch_fstep k w : wf w -> fstep (fun _ => False) w (pool_DispatchQueuedEvents effect k w).
Proof.
  intros Hw. unfold pool_DispatchQueuedEvents. destruct (slot k w) as [p|]; [|by apply fstep_refl].
  pose proof (signal_calls_fstep k (mEventQueue p) w Hw) as H1.
  eapply fstep_ext; [|eapply fstep_trans; [exact H1|apply MP_fstep; [done|done|apply (fstep_wf _ _ _ H1)]]].
  intros U. tauto.
Qed.

Lemma slots_fstep (g : nat -> world -> world) (l : list nat) w :
  (forall k w, wf w -> fstep (fun _ => False) w (g k w)) ->
  wf w ->
  fstep (fun _ => False) w
        (fold_left (fun w k => match slot k w with Some _ => g k w | None => w end) l w).
Proof.
  intros Hg. revert w. induction l as [|k l IH]; intros w Hw; simpl; [by apply fstep_refl|].
  assert (H1 : fstep (fun _ => False) w (match slot k w with Some _ => g k w | None => w end)).
  { destruct (slot k w); [by apply Hg|by apply fstep_refl]. }
  eapply fstep_ext; [|eapply fstep_trans; [exact H1|apply IH, (fstep_wf _ _ _ H1)]].
  intros U. tauto.
Qed.

Lemma DispatchQueuedEvents_fstep w : wf w -> fstep (fun _ => False) w (DispatchQueuedEvents effect w).
Proof. intros Hw. apply slots_fstep; [apply pool_dispatch_fstep|done]. Qed.

Lemma ClearEventQueues_fstep w : wf w -> fstep (fun _ => False) w (ClearEventQueues w).
Proof. intros Hw. apply slots_fstep; [intros k w' Hw'; by apply MP_fstep|done]. Qed.

Lemma ClearEventQueues_sel_fstep Ts w : wf w -> fstep (fun T => T ∈ Ts) w (ClearEventQueues_sel Ts w).
Proof.
  revert w. induction Ts as [|U Ts IH]; intros w Hw; simpl.
  - eapply fstep_ext; [|by apply fstep_refl]. intros T. rewrite elem_of_nil. tauto.
  - assert (H1 : fstep (fun T => T = U) w
                   (let '(k, w) := GetEventHandler U w in pool_ClearEventQueue k w)).
    { pose proof (GH_fstep U w Hw) as H0. destruct (GetEventHandler U w) as [k w0].
      eapply fstep_ext; [|eapply fstep_trans; [exact H0|apply MP_fstep; [done|done|apply H0]]].
      intros T. simpl. tauto. }
    eapply fstep_ext; [|eapply fstep_trans; [exact H1|apply IH, (fstep_wf _ _ _ H1)]].
    intros T. rewrite elem_of_cons. tauto.
Qed.

Lemma TriggerEvent_fstep T a w : wf w -> fstep (fun U => U = T) w (TriggerEvent effect T a w).
Proof.
  intros Hw. unfold TriggerEvent, pool_TriggerEvent. pose proof (GH_fstep T w Hw) as H0.
  destruct (GetEventHandler T w) as [k w0].
  eapply fstep_ext; [|eapply fstep_trans; [exact H0|apply signal_call_fstep, H0]].
  intros U. tauto.
Qed.

Lemma Subscribe_spec T c w :
  wf w ->
  let w' := SubscribeToEvent T c w in
  wf w' /\ ids_ext w w' /\ trace w' = trace w /\
  (forall U, subs_of U w' = if decide (U = T) then subs_of T w ++ [c] else subs_of U w) /\
  (forall U, is_Some (pool_of U w') <-> is_Some (pool_of U w) \/ U = T).
Proof.
  intros Hw. unfold SubscribeToEvent.
  pose proof (GH_fstep T w Hw) as (W0 & I0 & _ & _).
  pose proof (GH_pool_of T w) as HP. pose proof (GH_reg T w) as HR.
  pose proof (GH_fst T w) as HF. pose proof (GH_trace T w) as HT.
  destruct (GetEventHandler T w) as [k w0]. simpl in *.
  assert (Hk : event_ids (reg w0) !! T = Some k) by (rewrite HR, HF; apply GetEventId_lookup).
  split; [by apply MP_wf|]. split; [intros V i H; rewrite MP_reg; auto|].
  split; [by rewrite MP_trace|]. split.
  - intros U. unfold subs_of. rewrite (MP_pool_of k _ w0 U T), !HP by done.
    case_decide; [subst; rewrite decide_True by done|done].
    destruct (pool_of T w); done.
  - intros U. rewrite (MP_pool_of k _ w0 U T), !HP by done.
    case_decide; [subst; rewrite decide_True by done; split; eauto|split; [auto|]].
    intros [|]; [done|congruence].
Qed.

(** What one bus call does to the trace and to the set of pools. *)
Lemma run_op_spec o w :
  wf w ->
  wf (run_op effect o w) /\
  exists t, trace (run_op effect o w) = trace w ++ t /\ delivered w t /\
    (forall T, is_Some (pool_of T (run_op effect o w)) <->
               is_Some (pool_of T w) \/ resolves T o \/ caused effect T t).
Proof.
  intros Hw. destruct o as [U a|U a|U c| | |Ts]; simpl.
  - destruct (TriggerEvent_fstep U a w Hw) as (W & _ & _ & t & Tr & D & P).
    split; [done|]. exists t. split; [done|]. split; [done|].
    intros T. rewrite P. split; intros [| [->|]]; auto.
  - destruct (Enqueue_fstep U a w Hw) as (W & _ & _ & t & Tr & D & P).
    split; [done|]. exists t. split; [done|]. split; [done|].
    intros T. rewrite P. split; intros [| [->|]]; auto.
  - destruct (Subscribe_spec U c w Hw) as (W & _ & Tr & _ & P).
    split; [done|]. exists []. rewrite app_nil_r. split; [done|]. split.
    + intros c' U' a' Hin. by apply elem_of_nil in Hin.
    + intros T. rewrite P. unfold caused. split; [intros [| ->]; auto|].
      intros [| [->|(? & ? & ? & ? & Hin & _)]]; auto. by apply elem_of_nil in Hin.
  - destruct (DispatchQueuedEvents_fstep w Hw) as (W & _ & _ & t & Tr & D & P).
    split; [done|]. exists t. split; [done|]. split; [done|]. intros T. rewrite P. simpl. tauto.
  - destruct (ClearEventQueues_fstep w Hw) as (W & _ & _ & t & Tr & D & P).
    split; [done|]. exists t. split; [done|]. split; [done|]. intros T. rewrite P. simpl. tauto.
  - destruct (ClearEventQueues_sel_fstep Ts w Hw) as (W & _ & _ & t & Tr & D & P).
    split; [done|]. exists t. split; [done|]. split; [done|]. intros T. rewrite P. simpl. tauto.
Qed.

End General.

Lemma wf_world0 : wf world0.
Proof.
  split; [|intros k p Hk; unfold slot in Hk; simpl in Hk; done].
  split; [intros T i H; simpl in H; by rewrite lookup_empty in H|].
  split; [intros T1 T2 i H; simpl in H; by rewrite lookup_empty in H|].
  intros i Hi. simpl in Hi. lia.
Qed.

Section Runs.

Variable effect : callable -> ty -> val -> list (ty * val).

Lemma run_app os1 os2 w : run effect (os1 ++ os2) w = run effect os2 (run effect os1 w).
Proof. unfold run. by rewrite fold_left_app. Qed.

Lemma run_wf_from os w : wf w -> wf (run effect os w).
Proof.
  revert w. induction os as [|o os IH]; intros w Hw; simpl; [done|].
  apply IH. by apply run_op_spec.
Qed.

Lemma run_wf os : wf (run effect os world0).
Proof. apply run_wf_from, wf_world0. Qed.

Lemma Enqueues_trace (l : list (ty * val)) w :
  trace (fold_left (fun w '(U, b) => EnqueueEvent U b w) l w) = trace w.
Proof.
  revert w. induction l as [|[U b] l IH]; intros w; simpl; [done|]. by rewrite IH, Enqueue_trace.
Qed.

Lemma invoke_trace c T a w : trace (invoke effect c T a w) = trace w ++ [(c, T, a)].
Proof. unfold invoke. by rewrite Enqueues_trace. Qed.

Lemma invokes_trace T a (l : list callable) w :
  trace (fold_left (fun w c => invoke effect c T a w) l w) = trace w ++ map (fun c => (c, T, a)) l.
Proof.
  revert w. induction l as [|c l IH]; intros w; simpl; [by rewrite app_nil_r|].
  by rewrite IH, invoke_trace, <- app_assoc.
Qed.

Lemma Enqueues_pool_of_other V (l : list (ty * val)) w :
  wf w -> (forall b, (V, b) ∉ l) ->
  pool_of V (fold_left (fun w '(U, b) => EnqueueEvent U b w) l w) = pool_of V w.
Proof.
  revert w. induction l as [|[U b] l IH]; intros w Hw Hl; simpl; [done|].
  rewrite IH; [|by apply Enqueue_wf|].
  - rewrite Enqueue_pool_of by done. case_decide; [|done]. subst U.
    exfalso. apply (Hl b). apply list_elem_of_here.
  - intros b' Hb'. apply (Hl b'). by apply list_elem_of_further.
Qed.

Lemma invoke_wf c T a w : wf w -> wf (invoke effect c T a w).
Proof. intros Hw. unfold invoke. by apply (Enqueues_fstep effect). Qed.

Lemma invokes_pool_of_other V T a (l : list callable) w :
  wf w -> (forall c, c ∈ l -> forall b, (V, b) ∉ effect c T a) ->
  pool_of V (fold_left (fun w c => invoke effect c T a w) l w) = pool_of V w.
Proof.
  revert w. induction l as [|c l IH]; intros w Hw Hl; simpl; [done|].
  rewrite IH; [|by apply invoke_wf|].
  - unfold invoke. rewrite Enqueues_pool_of_other; [done|done|]. apply Hl, list_elem_of_here.
  - intros c' Hc'. apply Hl. by apply list_elem_of_further.
Qed.


(** C9: every invocation made during any bus call from any reachable state
    delivers an event of type [U] to a callable bound to [U] when the call
    started: events of [T] never reach callables bound to another type. *)
Theorem deliveries_only_to_subscribers_of_the_type (os : list op) (o : op) :
  let w := run effect os world0 in
  exists t, trace (run_op effect o w) = trace w ++ t /\
    forall c U a, (c, U, a) ∈ t -> c ∈ subs_of U w.
Proof.
  intros w. destruct (run_op_spec effect o w (run_wf os)) as (_ & t & Tr & D & _).
  by exists t.
Qed.

(** C7 (as amended): in every reachable state the pool of [T] exists iff
    some bus call resolved [T] through [GetEventHandler] (a Trigger, an
    Enqueue, a Subscribe or a selective [ClearEventQueues<..., T, ...>]),
    or a bound callable invoked on the way enqueued a [T] event. *)
Theorem pool_exists_iff_resolved (os : list op) (T : ty) :
  is_Some (pool_of T (run effect os world0)) <->
  (exists o, o ∈ os /\ resolves T o) \/ caused effect T (trace (run effect os world0)).
Proof.
  induction os as [|o os IH] using rev_ind.
  - simpl. unfold caused. split; [intros [p Hp]; unfold pool_of in Hp; simpl in Hp;
      by rewrite lookup_empty in Hp|].
    intros [(o & Ho & _)|(? & ? & ? & ? & Hin & _)]; by apply elem_of_nil in Ho || by apply elem_of_nil in Hin.
  - rewrite !run_app. simpl.
    destruct (run_op_spec effect o _ (run_wf os)) as (_ & t & Tr & _ & P).
    rewrite P, IH, Tr, caused_app.
    setoid_rewrite elem_of_app. setoid_rewrite list_elem_of_singleton.
    split.
    + intros [[[o' [Ho' Hr]]|Hc]|[Hr|Hc]]; eauto.
    + intros [[o' [[Ho'| ->] Hr]]|[Hc|Hc]]; eauto.
Qed.

End Runs.

(** ** Callables that do not call back into the bus *)

Lemma slot_add_trace t w j : slot j (add_trace t w) = slot j w.
Proof. done. Qed.

Lemma add_trace_app t1 t2 w : add_trace t2 (add_trace t1 w) = add_trace (t1 ++ t2) w.
Proof. unfold add_trace. simpl. by rewrite app_assoc. Qed.

Lemma add_trace_nil w : add_trace [] w = w.
Proof. unfold add_trace. rewrite app_nil_r. by destruct w. Qed.

Lemma flat_map_seq_ext {A} (f g : nat -> list A) s n :
  (forall k, s <= k < s + n -> f k = g k) -> flat_map f (seq s n) = flat_map g (seq s n).
Proof.
  revert s. induction n as [|n IH]; intros s H; simpl; [done|].
  rewrite H by lia. f_equal. apply IH. intros k Hk. apply H. lia.
Qed.

Section Quiet.

Variable effect : callable -> ty -> val -> list (ty * val).
Hypothesis Hquiet : forall c T a, effect c T a = [].

Lemma invoke_quiet c T a w : invoke effect c T a w = log (c, T, a) w.
Proof. unfold invoke. by rewrite Hquiet. Qed.

Lemma signal_call_quiet k a w p :
  slot k w = Some p ->
  signal_call effect k a w = add_trace (map (fun c => (c, pool_type p, a)) (mSignal p)) w.
Proof.
  intros Hk. unfold signal_call. rewrite Hk.
  generalize (mSignal p) w. intros l. induction l as [|c l IH]; intros w'; simpl.
  - by rewrite add_trace_nil.
  - rewrite invoke_quiet, IH. unfold add_trace, log. simpl. by rewrite <- app_assoc.
Qed.

Lemma signal_calls_quiet k w p (l : list val) :
  slot k w = Some p ->
  fold_left (fun w e => signal_call effect k e w) l w =
  add_trace (flat_map (fun a => map (fun c => (c, pool_type p, a)) (mSignal p)) l) w.
Proof.
  revert w. induction l as [|e l IH]; intros w Hk; simpl; [by rewrite add_trace_nil|].
  rewrite (signal_call_quiet k e w p Hk), IH by (by rewrite slot_add_trace).
  by rewrite add_trace_app.
Qed.

Lemma pool_dispatch_quiet k w p :
  slot k w = Some p ->
  pool_DispatchQueuedEvents effect k w = modify_pool k pool_clear (add_trace (flush_trace p) w).
Proof.
  intros Hk. unfold pool_DispatchQueuedEvents. rewrite Hk.
  unfold pool_ClearEventQueue. by rewrite (signal_calls_quiet k w p).
Qed.

Lemma dispatch_fold_quiet (s n : nat) w :
  let w' := fold_left (fun w k => match slot k w with
                                  | Some _ => pool_DispatchQueuedEvents effect k w
                                  | None => w
                                  end) (seq s n) w in
  reg w' = reg w /\
  trace w' = trace w ++ flat_map (fun k => slot_flush_trace (slot k w)) (seq s n) /\
  forall j, slot j w' = if decide (s <= j < s + n) then pool_clear <$> slot j w else slot j w.
Proof.
  revert s w. induction n as [|n IH]; intros s w; simpl.
  - rewrite app_nil_r. split; [done|]. split; [done|]. intros j. by rewrite decide_False by lia.
  - set (w1 := match slot s w with Some _ => pool_DispatchQueuedEvents effect s w | None => w end).
    assert (Hw1 : reg w1 = reg w /\ trace w1 = trace w ++ slot_flush_trace (slot s w) /\
                  forall j, slot j w1 = if decide (j = s) then pool_clear <$> slot s w else slot j w).
    { unfold w1. destruct (slot s w) as [p|] eqn:E.
      - rewrite (pool_dispatch_quiet s w p E), MP_reg, MP_trace. split; [done|]. split; [done|].
        intros j. rewrite MP_slot, slot_add_trace, E. done.
      - rewrite app_nil_r. split; [done|]. split; [done|]. intros j. case_decide; subst; by rewrite ?E. }
    destruct Hw1 as (R1 & T1 & S1).
    destruct (IH (S s) w1) as (R & Tr & Sl).
    rewrite R, Tr, R1, T1, <- app_assoc. split; [done|]. split.
    + f_equal. f_equal. apply flat_map_seq_ext. intros k Hk. rewrite S1, decide_False by lia. done.
    + intros j. rewrite Sl, !S1.
      destruct (decide (j = s)); [subst; rewrite decide_False, decide_True by lia; done|].
      destruct (decide (S s <= j < S s + n)); [rewrite decide_True by lia|rewrite decide_False by lia]; done.
Qed.

Lemma DispatchQueuedEvents_quiet w :
  let w' := DispatchQueuedEvents effect w in
  reg w' = reg w /\
  trace w' = trace w ++ flat_map (fun k => slot_flush_trace (slot k w)) (seq 0 (length (mEventPools w))) /\
  forall j, slot j w' = pool_clear <$> slot j w.
Proof.
  unfold DispatchQueuedEvents. destruct (dispatch_fold_quiet 0 (length (mEventPools w)) w) as (R & Tr & Sl).
  split; [done|]. split; [done|]. intros j. rewrite Sl. case_decide; [done|].
  by rewrite slot_beyond by lia.
Qed.

End Quiet.

Lemma filter_app_l {A} (f : A -> bool) (l1 l2 : list A) :
  List.filter f (l1 ++ l2) = List.filter f l1 ++ List.filter f l2.
Proof. induction l1 as [|x l1 IH]; simpl; [done|]. destruct (f x); simpl; by rewrite IH. Qed.

Lemma filter_flat_map {A B} (f : B -> bool) (g : A -> list B) (l : list A) :
  List.filter f (flat_map g l) = flat_map (fun x => List.filter f (g x)) l.
Proof. induction l as [|x l IH]; simpl; [done|]. by rewrite filter_app_l, IH. Qed.

Lemma filter_of_type_map T U a (l : list callable) :
  List.filter (of_type T) (map (fun c => (c, U, a)) l) =
  if bool_decide (U = T) then map (fun c => (c, U, a)) l else [].
Proof.
  induction l as [|c l IH]; simpl; [by case_bool_decide|].
  rewrite IH. by case_bool_decide.
Qed.

Lemma filter_flush_trace T p :
  List.filter (of_type T) (flush_trace p) = if bool_decide (pool_type p = T) then flush_trace p else [].
Proof.
  unfold flush_trace. rewrite filter_flat_map.
  induction (mEventQueue p) as [|a q IH]; simpl; [by case_bool_decide|].
  rewrite filter_of_type_map, IH. by case_bool_decide.
Qed.

(** In a well-formed world, the invocations of a full flush that concern
    [T] are those of the flush of [T]'s pool. *)
(** ** Dispatch seen from one event type

    Bound callables may enqueue events of any type but [T]. *)

Lemma signal_call_trace effect k a w :
  trace (signal_call effect k a w) =
  trace w ++ match slot k w with
              | Some p => map (fun c => (c, pool_type p, a)) (mSignal p)
              | None => []
              end.
Proof.
  unfold signal_call. destruct (slot k w) as [p|]; [|by rewrite app_nil_r].
  apply invokes_trace.
Qed.

(** The pool in a slot keeps its event type. *)
Lemma slot_type_stable w w' k q q' :
  wf w -> wf w' -> ids_ext w w' -> slot k w = Some q -> slot k w' = Some q' ->
  pool_type q' = pool_type q.
Proof.
  intros [_ Hp] [[_ [Hinj _]] Hp'] I Hq Hq'.
  apply (Hinj _ _ k); [by apply Hp'|]. apply I. by apply Hp.
Qed.

Lemma filter_none {A} (f : A -> bool) (l : list A) :
  (forall x, x ∈ l -> f x = false) -> List.filter f l = [].
Proof.
  induction l as [|x l IH]; intros H; simpl; [done|].
  rewrite (H x) by apply list_elem_of_here. apply IH. intros y Hy. apply H. by apply list_elem_of_further.
Qed.

Section NoReentrantT.

Variable effect : callable -> ty -> val -> list (ty * val).
Variable T : ty.
Hypothesis HnoT : forall c U b x, (T, x) ∉ effect c U b.

Lemma noT_signal_call_pool k a w : wf w -> pool_of T (signal_call effect k a w) = pool_of T w.
Proof.
  intros Hw. unfold signal_call. destruct (slot k w); [|done].
  apply invokes_pool_of_other; [done|]. intros c _ b. apply HnoT.
Qed.

Lemma noT_signal_calls_pool k (l : list val) w :
  wf w -> pool_of T (fold_left (fun w e => signal_call effect k e w) l w) = pool_of T w.
Proof.
  revert w. induction l as [|e l IH]; intros w Hw; simpl; [done|].
  destruct (signal_call_fstep effect k e w Hw) as (W & _).
  rewrite IH by done. by apply noT_signal_call_pool.
Qed.

(** Flushing a pool of another type invokes nobody for [T]. *)
Lemma other_signal_calls k (l : list val) w q :
  wf w -> slot k w = Some q -> pool_type q <> T ->
  exists t, trace (fold_left (fun w e => signal_call effect k e w) l w) = trace w ++ t /\
    List.filter (of_type T) t = [].
Proof.
  revert w q. induction l as [|e l IH]; intros w q Hw Hq Ht; simpl.
  - exists []. by rewrite app_nil_r.
  - destruct (signal_call_fstep effect k e w Hw) as (W & I & _).
    destruct (signal_call_keeps effect k e w k) as [q1 Hq1]; [by rewrite Hq|].
    pose proof (slot_type_stable _ _ k q q1 Hw W I Hq Hq1) as Hty.
    destruct (IH _ q1 W Hq1) as (t & Tr & F); [by rewrite Hty|].
    rewrite Tr, signal_call_trace, Hq, <- app_assoc.
    eexists. split; [reflexivity|]. rewrite filter_app_l, F, filter_of_type_map.
    by rewrite bool_decide_false.
Qed.

(** Flushing the pool of [T]: the pool is not touched by the callables. *)
Lemma own_signal_calls k (l : list val) w p :
  wf w -> event_ids (reg w) !! T = Some k -> pool_of T w = Some p ->
  let w' := fold_left (fun w e => signal_call effect k e w) l w in
  wf w' /\ event_ids (reg w') !! T = Some k /\ pool_of T w' = Some p /\
  trace w' = trace w ++ flat_map (fun a => map (fun c => (c, pool_type p, a)) (mSignal p)) l.
Proof.
  revert w. induction l as [|e l IH]; intros w Hw Hk Hp; simpl.
  - by rewrite app_nil_r.
  - destruct (signal_call_fstep effect k e w Hw) as (W & I & _).
    assert (Hs : slot k w = Some p) by (unfold pool_of in Hp; by rewrite Hk in Hp).
    destruct (IH (signal_call effect k e w)) as (W' & K' & P' & Tr');
      [done|by apply I|by rewrite noT_signal_call_pool|].
    split; [done|]. split; [done|]. split; [done|].
    rewrite Tr', signal_call_trace, Hs. by rewrite <- app_assoc.
Qed.

Lemma dispatch_step k w p kT :
  wf w -> event_ids (reg w) !! T = Some kT -> pool_of T w = Some p ->
  let w' := match slot k w with
            | Some _ => pool_DispatchQueuedEvents effect k w
            | None => w
            end in
  wf w' /\ event_ids (reg w') !! T = Some kT /\
  exists t, trace w' = trace w ++ t /\
    List.filter (of_type T) t = (if decide (k = kT) then flush_trace p else []) /\
    pool_of T w' = (if decide (k = kT) then Some (pool_clear p) else Some p).
Proof.
  intros Hw HkT Hp w'.
  pose proof (pool_of_type T w p Hw Hp) as Hty.
  assert (HsT : slot kT w = Some p) by (unfold pool_of in Hp; by rewrite HkT in Hp).
  destruct (decide (k = kT)) as [->|Hne].
  - unfold w'. rewrite HsT. unfold pool_DispatchQueuedEvents. rewrite HsT.
    destruct (own_signal_calls kT (mEventQueue p) w p Hw HkT Hp) as (W1 & K1 & P1 & Tr1).
    set (w1 := fold_left _ (mEventQueue p) w) in *.
    unfold pool_ClearEventQueue.
    split; [by apply MP_wf|]. split; [by rewrite MP_reg|].
    exists (flush_trace p). split; [by rewrite MP_trace|]. split.
    + rewrite filter_flush_trace. by rewrite bool_decide_true.
    + rewrite (MP_pool_of kT _ w1 T T W1 K1), decide_True, P1 by done. done.
  - unfold w'. destruct (slot k w) as [q|] eqn:Hq.
    + assert (Hqt : pool_type q <> T).
      { intros E. apply Hne. destruct Hw as [_ Hpw]. specialize (Hpw k q Hq). rewrite E, HkT in Hpw. congruence. }
      unfold pool_DispatchQueuedEvents. rewrite Hq.
      destruct (signal_calls_fstep effect k (mEventQueue q) w Hw) as (W1 & I1 & _).
      destruct (other_signal_calls k (mEventQueue q) w q Hw Hq Hqt) as (t & Tr & F).
      pose proof (noT_signal_calls_pool k (mEventQueue q) w Hw) as P1.
      set (w1 := fold_left _ (mEventQueue q) w) in *.
      assert (Kq : event_ids (reg w1) !! pool_type q = Some k) by (apply I1; by apply (proj2 Hw)).
      unfold pool_ClearEventQueue.
      split; [by apply MP_wf|]. split; [rewrite MP_reg; by apply I1|].
      exists t. split; [by rewrite MP_trace|]. split; [done|].
      rewrite (MP_pool_of k _ w1 T (pool_type q) W1 Kq), decide_False by congruence. by rewrite P1.
    + split; [done|]. split; [done|]. exists []. rewrite app_nil_r. by repeat split.
Qed.

Lemma dispatch_fold_T (s n : nat) w p kT :
  wf w -> event_ids (reg w) !! T = Some kT -> pool_of T w = Some p ->
  let w' := fold_left (fun w k => match slot k w with
                                  | Some _ => pool_DispatchQueuedEvents effect k w
                                  | None => w
                                  end) (seq s n) w in
  exists t, trace w' = trace w ++ t /\
    List.filter (of_type T) t = (if decide (s <= kT < s + n) then flush_trace p else []) /\
    pool_of T w' = (if decide (s <= kT < s + n) then Some (pool_clear p) else Some p).
Proof.
  revert s w p. induction n as [|n IH]; intros s w p Hw HkT Hp; simpl.
  - exists []. rewrite app_nil_r, !decide_False by lia. by repeat split.
  - destruct (dispatch_step s w p kT Hw HkT Hp) as (W1 & K1 & t1 & Tr1 & F1 & P1).
    set (w1 := match slot s w with Some _ => _ | None => w end) in *.
    destruct (decide (s = kT)) as [<-|Hne].
    + destruct (IH (S s) w1 (pool_clear p) W1 K1 P1) as (t2 & Tr2 & F2 & P2).
      rewrite decide_False in F2 by lia. rewrite decide_False in P2 by lia.
      exists (t1 ++ t2). rewrite Tr2, Tr1, <- app_assoc. split; [done|].
      rewrite !decide_True by lia. split; [|done]. by rewrite filter_app_l, F1, F2, app_nil_r.
    + destruct (IH (S s) w1 p W1 K1 P1) as (t2 & Tr2 & F2 & P2).
      exists (t1 ++ t2). rewrite Tr2, Tr1, <- app_assoc. split; [done|].
      rewrite filter_app_l, F1, F2. simpl.
      destruct (decide (S s <= kT < S s + n)); [rewrite !decide_True by lia|rewrite !decide_False by lia];
        split; done.
Qed.

(** [DispatchQueuedEvents()] seen from [T]: its invocations for [T] are
    exactly the flush of the pool of [T] as it stood when the call began;
    afterwards that pool's buffer is empty and its callables are kept. *)
Lemma dispatch_T w :
  wf w ->
  exists t, trace (DispatchQueuedEvents effect w) = trace w ++ t /\
    List.filter (of_type T) t = slot_flush_trace (pool_of T w) /\
    queue_of T (DispatchQueuedEvents effect w) = [] /\
    subs_of T (DispatchQueuedEvents effect w) = subs_of T w.
Proof.
  intros Hw. destruct (pool_of T w) as [p|] eqn:Hp.
  - destruct (event_ids (reg w) !! T) as [kT|] eqn:HkT; [|unfold pool_of in Hp; by rewrite HkT in Hp].
    assert (Hs : slot kT w = Some p) by (unfold pool_of in Hp; by rewrite HkT in Hp).
    assert (Hlt : kT < length (mEventPools w)).
    { unfold slot in Hs. destruct (mEventPools w !! kT) eqn:E; [|done]. by apply lookup_lt_Some in E. }
    destruct (dispatch_fold_T 0 (length (mEventPools w)) w p kT Hw HkT Hp) as (t & Tr & F & P).
    rewrite decide_True in F by lia. rewrite decide_True in P by lia.
    exists t. unfold DispatchQueuedEvents. split; [done|]. split; [done|].
    unfold queue_of, subs_of. rewrite P, Hp. done.
  - destruct (DispatchQueuedEvents_fstep effect w Hw) as (W & I & S & t & Tr & D & P).
    exists t. split; [done|]. split.
    + apply filter_none. intros [[c U] a] Hin. unfold of_type.
      apply bool_decide_eq_false. intros ->. apply D in Hin.
      unfold subs_of in Hin. rewrite Hp in Hin. by apply elem_of_nil in Hin.
    + split; [|apply S]. unfold queue_of.
      destruct (pool_of T (DispatchQueuedEvents effect w)) eqn:E; [|done].
      destruct (proj1 (P T)) as [[? H]|[[]|(c & U & a & b & _ & Hb)]]; [by eexists| congruence | ].
      by apply HnoT in Hb.
Qed.

(** C3 (as amended): if no bound callable enqueues a [T] event,
    [EnqueueEvent<T>(a1)], ..., [EnqueueEvent<T>(an)] followed by
    [DispatchQueuedEvents()] invokes, for [T], each bound callable with the
    [T] events pending before, then [T(a1)], ..., [T(an)], in that order,
    once per buffered event (all callables for one event, then for the
    next); afterwards [T]'s buffer is empty and its callables are kept. *)
Theorem enqueued_events_dispatched_in_order (w : world) (evs : list val) :
  wf w ->
  let w1 := fold_left (fun w a => EnqueueEvent T a w) evs w in
  let w2 := DispatchQueuedEvents effect w1 in
  exists t, trace w2 = trace w ++ t /\
    List.filter (of_type T) t =
      flat_map (fun a => map (fun c => (c, T, a)) (subs_of T w)) (queue_of T w ++ evs) /\
    queue_of T w2 = [] /\ subs_of T w2 = subs_of T w.
Proof.
  intros Hw w1 w2.
  destruct (Enqueues_spec T evs w Hw) as (W1 & Tr1 & Q1 & S1). fold w1 in W1, Tr1, Q1, S1.
  destruct (dispatch_T w1 W1) as (t & Tr & F & Q & S). fold w2 in Tr, F, Q, S.
  exists t. rewrite Tr, Tr1. split; [done|]. rewrite <- Q1, <- S1, S. split; [|done].
  rewrite F. unfold queue_of, subs_of. destruct (pool_of T w1) as [p|] eqn:E; [|done]. simpl.
  unfold flush_trace. by rewrite (pool_of_type T w1 p W1 E).
Qed.

End NoReentrantT.

(** ** The order of [DispatchQueuedEvents()] in terms of type ids *)






(** ** Concrete runs *)

(** C1: callable [0], bound to ["Damage"], enqueues ["Damage"] [[2]] when it
    receives [[1]].  After [EnqueueEvent<Damage>(1)] the first
    [DispatchQueuedEvents()] delivers only [[1]]: the event enqueued during
    the flush is not delivered then, but the closing [ClearEventQueue()]
    erases it, and the next [DispatchQueuedEvents()] delivers nothing. *)
Theorem reentrant_enqueue_erased_by_closing_clear :
  trace damage_world = [] /\
  trace (DispatchQueuedEvents echo damage_world) = [(0, "Damage"%string, [1%Z])] /\
  queue_of "Damage" (DispatchQueuedEvents echo damage_world) = [] /\
  trace (DispatchQueuedEvents echo (DispatchQueuedEvents echo damage_world)) =
    [(0, "Damage"%string, [1%Z])].
Proof. vm_compute. repeat split. Qed.

(** C2: [DispatchQueuedEvents<Damage>()] is rejected ([DispatchEvents] is
    not a member of [EventPool], and the const member function calls the
    non-const [GetEventHandler]), while the sibling
    [ClearEventQueues<Damage>()] is accepted. *)
Theorem selective_dispatch_ill_formed (effect : callable -> ty -> val -> list (ty * val)) :
  DispatchQueuedEvents_sel effect ["Damage"%string] = None /\
  is_Some (ClearEventQueues_sel_checked ["Damage"%string]).
Proof. split; [reflexivity|eexists; reflexivity]. Qed.

(** C7, refuted: [ClearEventQueues<Damage>()] alone creates the pool of
    ["Damage"], though no Trigger, Enqueue or Subscribe for it was made. *)
Lemma selective_clear_creates_pool :
  is_Some (pool_of "Damage" (run quiet [OClearSel ["Damage"%string]] world0)) /\
  ~ seen_trigger_enqueue_subscribe "Damage" [OClearSel ["Damage"%string]].
Proof.
  split; [eexists; vm_compute; reflexivity|].
  intros (o & Ho & H). apply list_elem_of_singleton in Ho. subst o. done.
Qed.


(** C3, refuted: callable [1], bound to ["Hit"], enqueues ["Damage"] [[9]]
    whenever it receives a ["Hit"] event.  After [EnqueueEvent<Damage>(1)],
    [DispatchQueuedEvents()] invokes callable [0] of ["Damage"] with [[9]]
    besides [[1]] when ["Hit"] has the smaller id, and leaves [[9]] in the
    buffer of ["Damage"] when ["Damage"] has the smaller id. *)
Lemma reentrant_enqueue_of_same_type_breaks_claim :
  trace (DispatchQueuedEvents hit_enqueues_damage
           (fold_left (fun w a => EnqueueEvent "Damage" a w) [[1%Z]]
              (run hit_enqueues_damage
                 [OSubscribe "Hit"%string 1; OSubscribe "Damage"%string 0; OEnqueue "Hit"%string [2%Z]]
                 world0))) =
    [(1, "Hit"%string, [2%Z]); (0, "Damage"%string, [1%Z]); (0, "Damage"%string, [9%Z])] /\
  queue_of "Damage"
    (DispatchQueuedEvents hit_enqueues_damage
       (fold_left (fun w a => EnqueueEvent "Damage" a w) [[1%Z]]
          (run hit_enqueues_damage
             [OSubscribe "Damage"%string 0; OSubscribe "Hit"%string 1; OEnqueue "Hit"%string [2%Z]]
             world0))) = [[9%Z]].
Proof. split; vm_compute; reflexivity. Qed.

(** ** Witnesses *)

Lemma pool_dispatch_leaves_queue_empty_witness :
  slot 0 damage_world =
    Some {| pool_type := "Damage"; mSignal := [0]; mEventQueue := [[1%Z]] |} /\
  exists q, slot 0 (pool_DispatchQueuedEvents echo 0 damage_world) = Some q /\ mEventQueue q = [].
Proof.
  split; [vm_compute; reflexivity|].
  apply (pool_dispatch_leaves_queue_empty echo 0 damage_world
           {| pool_type := "Damage"; mSignal := [0]; mEventQueue := [[1%Z]] |}).
  vm_compute. reflexivity.
Defined.



Lemma enqueued_events_dispatched_in_order_witness :
  (forall c U b x, ("Hit"%string, x) ∉ hit_enqueues_damage c U b) /\
  wf (run hit_enqueues_damage
        [OSubscribe "Hit"%string 1; OSubscribe "Damage"%string 0; OEnqueue "Hit"%string [4%Z]] world0) /\
  let w := run hit_enqueues_damage
             [OSubscribe "Hit"%string 1; OSubscribe "Damage"%string 0; OEnqueue "Hit"%string [4%Z]] world0 in
  let w1 := fold_left (fun w a => EnqueueEvent "Hit" a w) [[2%Z]; [3%Z]] w in
  let w2 := DispatchQueuedEvents hit_enqueues_damage w1 in
  exists t, trace w2 = trace w ++ t /\
    List.filter (of_type "Hit") t =
      flat_map (fun a => map (fun c => (c, "Hit"%string, a)) (subs_of "Hit" w))
               (queue_of "Hit" w ++ [[2%Z]; [3%Z]]) /\
    queue_of "Hit" w2 = [] /\ subs_of "Hit" w2 = subs_of "Hit" w.
Proof.
  assert (Hn : forall c U b x, ("Hit"%string, x) ∉ hit_enqueues_damage c U b).
  { intros c U b x. unfold hit_enqueues_damage. case_bool_decide.
    - rewrite list_elem_of_singleton. intros H'. inversion H'.
    - apply not_elem_of_nil. }
  split; [exact Hn|]. split; [apply run_wf|].
  apply (enqueued_events_dispatched_in_order hit_enqueues_damage "Hit" Hn). apply run_wf.
Defined.

(** * Further properties of the bus operations *)

(** ** Helpers *)

Lemma GH_length_eq T w :
  length (mEventPools (snd (GetEventHandler T w))) =
  Nat.max (length (mEventPools w)) (S (fst (GetEventHandler T w))).
Proof.
  unfold GetEventHandler. destruct (GetEventId T (reg w)) as [n r]. simpl.
  destruct (decide _).
  - destruct (_ !! n) as [[]|]; simpl; rewrite ?length_insert, length_app, length_replicate; lia.
  - destruct (_ !! n) as [[]|]; simpl; rewrite ?length_insert; lia.
Qed.

Lemma GH_MP_pool_of T f w U :
  wf w ->
  pool_of U (let '(k, w1) := GetEventHandler T w in modify_pool k f w1) =
  if decide (U = T) then Some (f (default (new_EventPool T) (pool_of T w))) else pool_of U w.
Proof.
  intros Hw.
  pose proof (GH_pool_of T w) as HP. pose proof (GH_wf T w Hw) as HW.
  pose proof (GH_reg T w) as HR. pose proof (GH_fst T w) as HF.
  destruct (GetEventHandler T w) as [k w1]. simpl in *.
  rewrite (MP_pool_of k _ w1 U T); [|done|].
  - rewrite !HP by done. case_decide; [|done]. subst U. by rewrite decide_True.
  - rewrite HR, HF. apply GetEventId_lookup.
Qed.

Lemma GH_MP_wf T f w :
  (forall p, pool_type (f p) = pool_type p) -> wf w ->
  wf (let '(k, w1) := GetEventHandler T w in modify_pool k f w1).
Proof.
  intros Hf Hw. pose proof (GH_wf T w Hw) as HW.
  destruct (GetEventHandler T w) as [k w1]. by apply MP_wf.
Qed.

Lemma GH_MP_trace T f w :
  trace (let '(k, w1) := GetEventHandler T w in modify_pool k f w1) = trace w.
Proof.
  pose proof (GH_trace T w) as HT.
  destruct (GetEventHandler T w) as [k w1]. simpl in *. by rewrite MP_trace.
Qed.

Lemma ClearEventQueues_length w : length (mEventPools (ClearEventQueues w)) = length (mEventPools w).
Proof. apply (clear_fold_spec 0 _ w). Qed.

(** Two worlds with the same registry, trace, vector size and slots are equal. *)
Lemma world_ext w w' :
  reg w = reg w' -> trace w = trace w' ->
  length (mEventPools w) = length (mEventPools w') ->
  (forall j, slot j w = slot j w') -> w = w'.
Proof.
  destruct w as [r l t], w' as [r' l' t']; simpl. intros -> -> Hl Hs. f_equal.
  apply list_eq. intros j. specialize (Hs j). unfold slot in Hs; simpl in Hs.
  destruct (l !! j) as [o|] eqn:E1, (l' !! j) as [o'|] eqn:E2.
  - destruct o, o'; congruence.
  - apply lookup_lt_Some in E1. apply lookup_ge_None in E2. lia.
  - apply lookup_lt_Some in E2. apply lookup_ge_None in E1. lia.
  - done.
Qed.

Lemma Enqueue_queue_of T a w U :
  wf w -> queue_of U (EnqueueEvent T a w) = queue_of U w ++ enqueued_of U [(T, a)].
Proof.
  intros Hw. unfold queue_of. rewrite Enqueue_pool_of by done. unfold enqueued_of. simpl.
  destruct (decide (U = T)) as [->|HU].
  - rewrite bool_decide_true by done. by destruct (pool_of T w).
  - rewrite bool_decide_false by done. by rewrite app_nil_r.
Qed.

Section Further.

Variable effect : callable -> ty -> val -> list (ty * val).

Lemma Enqueues_queue_of (l : list (ty * val)) w U :
  wf w ->
  queue_of U (fold_left (fun w '(V, b) => EnqueueEvent V b w) l w) = queue_of U w ++ enqueued_of U l.
Proof.
  revert w. induction l as [|[V b] l IH]; intros w Hw; simpl; [by rewrite app_nil_r|].
  rewrite IH by (by apply Enqueue_wf). rewrite Enqueue_queue_of by done.
  rewrite <- app_assoc. f_equal. unfold enqueued_of. simpl. by rewrite app_nil_r.
Qed.

Lemma invoke_queue_of c T a w U :
  wf w -> queue_of U (invoke effect c T a w) = queue_of U w ++ enqueued_of U (effect c T a).
Proof. intros Hw. unfold invoke. rewrite Enqueues_queue_of; [done|exact Hw]. Qed.

Lemma invokes_queue_of T a (l : list callable) w U :
  wf w ->
  queue_of U (fold_left (fun w c => invoke effect c T a w) l w) =
  queue_of U w ++ flat_map (fun c => enqueued_of U (effect c T a)) l.
Proof.
  revert w. induction l as [|c l IH]; intros w Hw; simpl; [by rewrite app_nil_r|].
  rewrite IH by (by apply invoke_wf). rewrite invoke_queue_of by done. by rewrite app_assoc.
Qed.

Lemma run_op_keeps o w :
  wf w ->
  wf (run_op effect o w) /\ ids_ext w (run_op effect o w) /\
  forall T, subs_of T (run_op effect o w) = subs_of T w ++ subscriptions T [o].
Proof.
  intros Hw. destruct o as [U a|U a|U c| | |Ts]; simpl.
  - destruct (TriggerEvent_fstep effect U a w Hw) as (W & I & S & _).
    split; [done|]. split; [done|]. intros T. by rewrite S, app_nil_r.
  - destruct (Enqueue_fstep effect U a w Hw) as (W & I & S & _).
    split; [done|]. split; [done|]. intros T. by rewrite S, app_nil_r.
  - destruct (Subscribe_spec effect U c w Hw) as (W & I & _ & S & _).
    split; [done|]. split; [done|]. intros T. rewrite S. unfold subscriptions. simpl.
    destruct (decide (T = U)) as [->|HT].
    + by rewrite bool_decide_true.
    + rewrite bool_decide_false by congruence. by rewrite app_nil_r.
  - destruct (DispatchQueuedEvents_fstep effect w Hw) as (W & I & S & _).
    split; [done|]. split; [done|]. intros T. by rewrite S, app_nil_r.
  - destruct (ClearEventQueues_fstep effect w Hw) as (W & I & S & _).
    split; [done|]. split; [done|]. intros T. by rewrite S, app_nil_r.
  - destruct (ClearEventQueues_sel_fstep effect Ts w Hw) as (W & I & S & _).
    split; [done|]. split; [done|]. intros T. by rewrite S, app_nil_r.
Qed.

End Further.

(** ** [GetEventHandler<Event>] *)

(** X1: resolving the pool of a type a second time changes nothing: the
    same index comes back, no slot is added and no pool is replaced. *)
Theorem GetEventHandler_idempotent (T : ty) (w : world) :
  GetEventHandler T (snd (GetEventHandler T w)) = GetEventHandler T w.
Proof.
  pose proof (GH_reg T w) as HR. pose proof (GH_fst T w) as HF.
  pose proof (GH_slot T w (fst (GetEventHandler T w))) as HS.
  pose proof (GH_length_eq T w) as HL.
  rewrite decide_True in HS by done.
  destruct (GetEventHandler T w) as [k w1]. simpl in *.
  assert (Hk : event_ids (reg w1) !! T = Some k) by (rewrite HR, HF; apply GetEventId_lookup).
  unfold slot in HS.
  destruct (mEventPools w1 !! k) as [[p|]|] eqn:E; try discriminate.
  unfold GetEventHandler, GetEventId. rewrite Hk. simpl.
  rewrite decide_False by lia. rewrite E. by destruct w1.
Qed.

(** X2: [GetEventHandler<T>] returns the id of [T]; it grows the vector
    to [max (size, id + 1)], invokes nobody, keeps an existing pool of [T]
    as it is (buffer and bound callables included) or creates an empty one,
    and leaves the pool of every other type as it was. *)
Theorem GetEventHandler_resolves_only_its_pool (T : ty) (w : world) :
  wf w ->
  let '(k, w1) := GetEventHandler T w in
  event_ids (reg w1) !! T = Some k /\
  length (mEventPools w1) = Nat.max (length (mEventPools w)) (S k) /\
  trace w1 = trace w /\
  forall U, pool_of U w1 =
    if decide (U = T) then Some (default (new_EventPool T) (pool_of T w)) else pool_of U w.
Proof.
  intros Hw.
  pose proof (GH_reg T w) as HR. pose proof (GH_fst T w) as HF. pose proof (GH_trace T w) as HT.
  pose proof (GH_length_eq T w) as HL. pose proof (GH_pool_of T w) as HP.
  destruct (GetEventHandler T w) as [k w1]. simpl in *.
  split; [rewrite HR, HF; apply GetEventId_lookup|].
  split; [done|]. split; [done|]. intros U. by apply HP.
Qed.

(** ** [EnqueueEvent] and [SubscribeToEvent] *)

(** X3: [EnqueueEvent<T>(a)] appends [a] at the back of the buffer of
    [T], invokes nobody, and leaves every other buffer and every list of
    bound callables unchanged. *)
Theorem EnqueueEvent_appends_to_its_queue_only (T : ty) (a : val) (w : world) :
  wf w ->
  let w' := EnqueueEvent T a w in
  trace w' = trace w /\
  (forall U, queue_of U w' = if decide (U = T) then queue_of T w ++ [a] else queue_of U w) /\
  (forall U, subs_of U w' = subs_of U w).
Proof.
  intros Hw w'. split; [apply Enqueue_trace|].
  split; intros U; unfold queue_of, subs_of, w'; rewrite Enqueue_pool_of by done;
    case_decide; subst; try done; by destruct (pool_of T w).
Qed.

(** X4: [SubscribeToEvent<T>(c)] appends [c] at the back of the callables
    bound to [T], invokes nobody, leaves the other types' callables
    unchanged, and leaves every buffer unchanged: already buffered events
    stay pending, nothing is delivered to [c] retroactively. *)
Theorem SubscribeToEvent_appends_subscriber_only (T : ty) (c : callable) (w : world) :
  wf w ->
  let w' := SubscribeToEvent T c w in
  trace w' = trace w /\
  (forall U, subs_of U w' = if decide (U = T) then subs_of T w ++ [c] else subs_of U w) /\
  (forall U, queue_of U w' = queue_of U w).
Proof.
  intros Hw w'. unfold w', SubscribeToEvent. split; [apply GH_MP_trace|].
  split; intros U; unfold queue_of, subs_of; rewrite GH_MP_pool_of by done;
    case_decide; subst; try done; by destruct (pool_of T w).
Qed.

(** ** [ClearEventQueues] and [ClearEventQueues<Events...>] *)

(** X5: clearing every buffer twice is the same as clearing once. *)
Theorem ClearEventQueues_idempotent (w : world) :
  ClearEventQueues (ClearEventQueues w) = ClearEventQueues w.
Proof.
  apply world_ext.
  - by rewrite !ClearEventQueues_reg.
  - by rewrite !ClearEventQueues_trace.
  - by rewrite !ClearEventQueues_length.
  - intros j. rewrite !ClearEventQueues_slot. by destruct (slot j w) as [[]|].
Qed.

(** X6: [ClearEventQueues<Ts...>()] empties the buffer of every type in
    [Ts], leaves the buffers of the other types unchanged, invokes nobody
    and keeps every list of bound callables. *)
Theorem ClearEventQueues_sel_clears_named_queues (Ts : list ty) (w : world) :
  wf w ->
  let w' := ClearEventQueues_sel Ts w in
  trace w' = trace w /\
  (forall U, queue_of U w' = if decide (U ∈ Ts) then [] else queue_of U w) /\
  (forall U, subs_of U w' = subs_of U w).
Proof.
  revert w. induction Ts as [|T Ts IH]; intros w Hw; cbv zeta.
  - split; [done|]. split; intros U; [|done]. rewrite decide_False; [done|]. apply not_elem_of_nil.
  - assert (E : ClearEventQueues_sel (T :: Ts) w =
                ClearEventQueues_sel Ts (let '(k, w) := GetEventHandler T w in modify_pool k pool_clear w))
      by reflexivity.
    rewrite E. clear E.
    remember (let '(k, w) := GetEventHandler T w in modify_pool k pool_clear w) as w1 eqn:Ew1.
    assert (W1 : wf w1) by (rewrite Ew1; by apply GH_MP_wf).
    assert (P1 : forall U, pool_of U w1 =
              if decide (U = T) then Some (pool_clear (default (new_EventPool T) (pool_of T w)))
              else pool_of U w) by (intros U; rewrite Ew1; by apply GH_MP_pool_of).
    assert (T1 : trace w1 = trace w) by (rewrite Ew1; apply GH_MP_trace).
    destruct (IH w1 W1) as (Tr & Q & S).
    split; [by rewrite Tr|]. split; intros U.
    + rewrite Q. unfold queue_of at 1. rewrite P1.
      repeat case_decide; try done; set_solver.
    + rewrite S. unfold subs_of. rewrite P1.
      case_decide; [subst U; by destruct (pool_of T w)|done].
Qed.

(** ** [TriggerEvent] *)

Section FurtherTrigger.

Variable effect : callable -> ty -> val -> list (ty * val).

(** X7: triggering a type nobody is bound to only resolves its pool. *)
Theorem TriggerEvent_without_subscribers (T : ty) (a : val) (w : world) :
  wf w -> subs_of T w = [] ->
  TriggerEvent effect T a w = snd (GetEventHandler T w).
Proof.
  intros Hw Hs. unfold TriggerEvent, pool_TriggerEvent, signal_call.
  pose proof (GH_pool_of T w T Hw) as HP.
  pose proof (GH_reg T w) as HR. pose proof (GH_fst T w) as HF.
  rewrite decide_True in HP by done.
  destruct (GetEventHandler T w) as [k w0]. simpl in *.
  assert (Hk : event_ids (reg w0) !! T = Some k) by (rewrite HR, HF; apply GetEventId_lookup).
  assert (Hsl : slot k w0 = Some (default (new_EventPool T) (pool_of T w))).
  { rewrite <- HP. unfold pool_of. by rewrite Hk. }
  rewrite Hsl. unfold subs_of in Hs. destruct (pool_of T w); simpl; [by rewrite Hs|done].
Qed.

(** X8: the events a trigger leaves buffered: the buffer of each type [U]
    gets, at its back, the [U] events the callables bound to [T] enqueue
    while they run, callable by callable in subscription order. *)
Theorem TriggerEvent_buffers_what_callables_enqueue (T : ty) (a : val) (w : world) (U : ty) :
  wf w ->
  queue_of U (TriggerEvent effect T a w) =
  queue_of U w ++ flat_map (fun c => enqueued_of U (effect c T a)) (subs_of T w).
Proof.
  intros Hw. unfold TriggerEvent, pool_TriggerEvent, signal_call.
  pose proof (GH_pool_of T w) as HP. pose proof (GH_wf T w Hw) as HW.
  pose proof (GH_reg T w) as HR. pose proof (GH_fst T w) as HF.
  destruct (GetEventHandler T w) as [k w0]. simpl in *.
  assert (Hk : event_ids (reg w0) !! T = Some k) by (rewrite HR, HF; apply GetEventId_lookup).
  assert (HPT := HP T Hw). rewrite decide_True in HPT by done.
  assert (Hs : slot k w0 = Some (default (new_EventPool T) (pool_of T w))).
  { rewrite <- HPT. unfold pool_of. by rewrite Hk. }
  pose proof (pool_of_type T w0 _ HW HPT) as Hty.
  assert (Hq0 : queue_of U w0 = queue_of U w).
  { unfold queue_of. rewrite (HP U Hw). case_decide; [subst U; by destruct (pool_of T w)|done]. }
  rewrite Hs, Hty. rewrite invokes_queue_of by done. rewrite Hq0. f_equal.
  unfold subs_of. by destruct (pool_of T w).
Qed.


(** ** [DispatchQueuedEvents()] *)

(** X10: with nothing buffered anywhere, [DispatchQueuedEvents()] changes
    nothing and invokes nobody. *)
Theorem DispatchQueuedEvents_nothing_pending (w : world) :
  wf w -> (forall U, queue_of U w = []) -> DispatchQueuedEvents effect w = w.
Proof.
  intros Hw Hq. apply (Dispatch_empty_buffers effect). intros k p Hk.
  specialize (Hq (pool_type p)). unfold queue_of in Hq. by rewrite (wf_pool_of w k p Hw Hk) in Hq.
Qed.

(** X11: when no bound callable calls back into the bus,
    [DispatchQueuedEvents()] leaves every buffer empty, keeps every list of
    bound callables and creates or removes no pool. *)
Theorem DispatchQueuedEvents_quiet_empties_every_queue (w : world) :
  (forall c U b, effect c U b = []) ->
  let w' := DispatchQueuedEvents effect w in
  forall U, queue_of U w' = [] /\ subs_of U w' = subs_of U w /\
            (is_Some (pool_of U w') <-> is_Some (pool_of U w)).
Proof.
  intros Hq w' U. destruct (DispatchQueuedEvents_quiet effect Hq w) as (R & _ & S).
  assert (P : pool_of U w' = pool_clear <$> pool_of U w).
  { unfold pool_of, w'. rewrite R. destruct (event_ids (reg w) !! U); [apply S|done]. }
  unfold queue_of, subs_of. rewrite P.
  destruct (pool_of U w) as [p|]; simpl; (split; [done|split; [done|]]).
  - split; intros _; by eexists.
  - tauto.
Qed.

(** ** Client programs *)

(** X12: the id of an event type never changes during any sequence of bus
    calls (including enqueues made by bound callables). *)
Theorem run_keeps_event_ids (os : list op) (w : world) (T : ty) (i : nat) :
  wf w -> event_ids (reg w) !! T = Some i -> event_ids (reg (run effect os w)) !! T = Some i.
Proof.
  revert w. induction os as [|o os IH]; intros w Hw Hi; simpl; [done|].
  destruct (run_op_keeps effect o w Hw) as (W & I & _). apply IH; [done|]. by apply I.
Qed.

(** X13: after any sequence of bus calls, the callables bound to [T] are
    those bound before followed by the callables the program subscribed to
    [T], in program order: triggers, enqueues, dispatches and clears never
    add, drop or reorder bound callables. *)
Theorem run_subscribers_are_the_subscriptions (os : list op) (w : world) (T : ty) :
  wf w -> subs_of T (run effect os w) = subs_of T w ++ subscriptions T os.
Proof.
  revert w. induction os as [|o os IH]; intros w Hw; simpl; [by rewrite app_nil_r|].
  destruct (run_op_keeps effect o w Hw) as (W & _ & S). rewrite IH by done. rewrite S.
  rewrite <- app_assoc. f_equal. unfold subscriptions. simpl. by rewrite app_nil_r.
Qed.

End FurtherTrigger.

(** ** Witnesses of the further properties *)

Lemma GetEventHandler_resolves_only_its_pool_witness :
  wf damage_world /\
  let '(k, w1) := GetEventHandler "Hit" damage_world in
  event_ids (reg w1) !! "Hit"%string = Some k /\
  length (mEventPools w1) = Nat.max (length (mEventPools damage_world)) (S k) /\
  trace w1 = trace damage_world /\
  forall U, pool_of U w1 =
    if decide (U = "Hit"%string)
    then Some (default (new_EventPool "Hit") (pool_of "Hit" damage_world)) else pool_of U damage_world.
Proof.
  split; [apply run_wf|].
  apply (GetEventHandler_resolves_only_its_pool "Hit" damage_world). apply run_wf.
Defined.

Lemma EnqueueEvent_appends_to_its_queue_only_witness :
  wf damage_world /\
  let w' := EnqueueEvent "Damage" [3%Z] damage_world in
  trace w' = trace damage_world /\
  (forall U, queue_of U w' =
     if decide (U = "Damage"%string) then queue_of "Damage" damage_world ++ [[3%Z]]
     else queue_of U damage_world) /\
  (forall U, subs_of U w' = subs_of U damage_world).
Proof.
  split; [apply run_wf|].
  apply (EnqueueEvent_appends_to_its_queue_only "Damage" [3%Z] damage_world). apply run_wf.
Defined.

Lemma SubscribeToEvent_appends_subscriber_only_witness :
  wf damage_world /\
  let w' := SubscribeToEvent "Damage" 4 damage_world in
  trace w' = trace damage_world /\
  (forall U, subs_of U w' =
     if decide (U = "Damage"%string) then subs_of "Damage" damage_world ++ [4]
     else subs_of U damage_world) /\
  (forall U, queue_of U w' = queue_of U damage_world).
Proof.
  split; [apply run_wf|].
  apply (SubscribeToEvent_appends_subscriber_only "Damage" 4 damage_world). apply run_wf.
Defined.

Lemma ClearEventQueues_sel_clears_named_queues_witness :
  wf damage_world /\
  let w' := ClearEventQueues_sel ["Damage"%string; "Hit"%string] damage_world in
  trace w' = trace damage_world /\
  (forall U, queue_of U w' =
     if decide (U ∈ ["Damage"%string; "Hit"%string]) then [] else queue_of U damage_world) /\
  (forall U, subs_of U w' = subs_of U damage_world).
Proof.
  split; [apply run_wf|].
  apply (ClearEventQueues_sel_clears_named_queues ["Damage"%string; "Hit"%string] damage_world).
  apply run_wf.
Defined.

Lemma TriggerEvent_without_subscribers_witness :
  wf damage_world /\ subs_of "Hit" damage_world = [] /\
  TriggerEvent echo "Hit" [1%Z] damage_world = snd (GetEventHandler "Hit" damage_world).
Proof.
  split; [apply run_wf|]. split; [vm_compute; reflexivity|].
  apply (TriggerEvent_without_subscribers echo "Hit" [1%Z] damage_world);
    [apply run_wf|vm_compute; reflexivity].
Defined.

Lemma TriggerEvent_buffers_what_callables_enqueue_witness :
  wf damage_world /\
  queue_of "Damage" (TriggerEvent echo "Damage" [1%Z] damage_world) =
  queue_of "Damage" damage_world ++
    flat_map (fun c => enqueued_of "Damage" (echo c "Damage" [1%Z])) (subs_of "Damage" damage_world).
Proof.
  split; [apply run_wf|].
  apply (TriggerEvent_buffers_what_callables_enqueue echo "Damage" [1%Z] damage_world "Damage").
  apply run_wf.
Defined.


Lemma DispatchQueuedEvents_nothing_pending_witness :
  wf (run echo [OSubscribe "Damage"%string 0] world0) /\
  (forall U, queue_of U (run echo [OSubscribe "Damage"%string 0] world0) = []) /\
  DispatchQueuedEvents echo (run echo [OSubscribe "Damage"%string 0] world0) =
    run echo [OSubscribe "Damage"%string 0] world0.
Proof.
  assert (Hq : forall U, queue_of U (run echo [OSubscribe "Damage"%string 0] world0) = []).
  { intros U.
    change (run echo [OSubscribe "Damage"%string 0] world0) with (SubscribeToEvent "Damage" 0 world0).
    unfold queue_of, SubscribeToEvent. rewrite GH_MP_pool_of by apply wf_world0.
    case_decide; [reflexivity|]. unfold pool_of. simpl. by rewrite lookup_empty. }
  split; [apply run_wf|]. split; [exact Hq|].
  apply (DispatchQueuedEvents_nothing_pending echo); [apply run_wf|exact Hq].
Defined.

Lemma DispatchQueuedEvents_quiet_empties_every_queue_witness :
  (forall c U b, quiet c U b = []) /\
  forall U, queue_of U (DispatchQueuedEvents quiet second_bus_subscribed) = [] /\
    subs_of U (DispatchQueuedEvents quiet second_bus_subscribed) = subs_of U second_bus_subscribed /\
    (is_Some (pool_of U (DispatchQueuedEvents quiet second_bus_subscribed)) <->
     is_Some (pool_of U second_bus_subscribed)).
Proof.
  assert (Hq : forall c U b, quiet c U b = []) by (intros; reflexivity).
  split; [exact Hq|].
  exact (DispatchQueuedEvents_quiet_empties_every_queue quiet second_bus_subscribed Hq).
Defined.

Lemma run_keeps_event_ids_witness :
  wf damage_world /\ event_ids (reg damage_world) !! "Damage"%string = Some 0 /\
  event_ids (reg (run echo [OEnqueue "Hit"%string []; ODispatchAll; OClearAll] damage_world))
    !! "Damage"%string = Some 0.
Proof.
  split; [apply run_wf|]. split; [vm_compute; reflexivity|].
  apply (run_keeps_event_ids echo [OEnqueue "Hit"%string []; ODispatchAll; OClearAll] damage_world);
    [apply run_wf|vm_compute; reflexivity].
Defined.

Lemma run_subscribers_are_the_subscriptions_witness :
  wf damage_world /\
  subs_of "Damage" (run echo [OSubscribe "Damage"%string 3; ODispatchAll; OSubscribe "Hit"%string 4]
                        damage_world) =
  subs_of "Damage" damage_world ++
    subscriptions "Damage" [OSubscribe "Damage"%string 3; ODispatchAll; OSubscribe "Hit"%string 4].
Proof.
  split; [apply run_wf|].
  apply (run_subscribers_are_the_subscriptions echo
           [OSubscribe "Damage"%string 3; ODispatchAll; OSubscribe "Hit"%string 4] damage_world "Damage").
  apply run_wf.
Defined.
